(** * Invoice agent backend: identifier extraction, session keys, due dates
      and the decide/act loop

    A shallow embedding of
    - [app/flows/custom_agent.py] (identifier extractor, DECIDE and ACT
      nodes, the graph),
    - [app/services/custom_agent_service.py] (identifier extractor, thread id,
      [initialize] with its tool filter, [ask_custom]),
    - [app/mcp_server/custom_server.py] ([calcular_vencimiento],
      [rag_get_invoice_data], the service URLs).

    Text.  A Python [str] is modelled as a [string] whose characters are the
    code points U+0000..U+00FF (one [ascii] per code point), which covers
    ASCII and the accented Spanish letters the questions use.  The character
    classes of [re] ([\d], [\s], [\w], [[A-Z]] under [re.IGNORECASE]) and
    [str.strip], [str.lower], [str.upper] are written out for exactly this
    range, following CPython's tables. *)

From Stdlib Require Import String Ascii List ZArith NArith Bool Lia.
From Stdlib Require Import DecimalString.
Import ListNotations.

Local Open Scope string_scope.
Local Open Scope list_scope.

(* ===================================================================== *)
(** ** Characters *)
(* ===================================================================== *)

Module Chars.

Definition code (c : ascii) : N := N_of_ascii c.

Definition in_range (lo hi : N) (c : ascii) : bool :=
  (lo <=? code c)%N && (code c <=? hi)%N.

Definition is_code (n : N) (c : ascii) : bool := (code c =? n)%N.

Definition is_ascii_upper : ascii -> bool := in_range 65 90.
Definition is_ascii_lower : ascii -> bool := in_range 97 122.

(** [[A-Z]] compiled with [re.IGNORECASE]: below U+0100 only the ASCII
    letters fold into A..Z. *)
Definition cls_AZ (c : ascii) : bool := is_ascii_upper c || is_ascii_lower c.

(** [\d]: the decimal digits (category Nd); below U+0100 these are 0..9. *)
Definition cls_digit : ascii -> bool := in_range 48 57.

(** [[A-Z0-9]] and [[A-Z0-9-]] with [re.IGNORECASE]. *)
Definition cls_AZ09 (c : ascii) : bool := cls_AZ c || cls_digit c.
Definition cls_AZ09_hyphen (c : ascii) : bool := cls_AZ09 c || is_code 45 c.

(** [\s] and [str.isspace]: TAB LF VT FF CR, FS GS RS US, SPACE, NEL, NBSP. *)
Definition cls_space (c : ascii) : bool :=
  in_range 9 13 c || in_range 28 32 c || is_code 133 c || is_code 160 c.

(** [\w]: [str.isalnum] or the underscore. *)
Definition cls_word (c : ascii) : bool :=
  cls_AZ09 c || is_code 95 c
  || is_code 170 c || is_code 178 c || is_code 179 c || is_code 181 c
  || is_code 185 c || is_code 186 c || in_range 188 190 c
  || in_range 192 214 c || in_range 216 246 c || in_range 248 255 c.

(** [str.lower] on one character: A..Z and the Latin-1 capitals
    U+00C0..U+00DE (except the multiplication sign U+00D7) move up by 32. *)
Definition lower_char (c : ascii) : ascii :=
  if is_ascii_upper c || (in_range 192 222 c && negb (is_code 215 c))
  then ascii_of_N (code c + 32) else c.

(** [str.upper] on one character.  Three code points below U+0100 have an
    upper case outside the range (U+00B5, U+00DF, U+00FF); they are left
    as they are here, and [identifier_chars] below shows that no extracted
    identifier contains them. *)
Definition upper_char (c : ascii) : ascii :=
  if is_ascii_lower c || (in_range 224 254 c && negb (is_code 247 c))
  then ascii_of_N (code c - 32) else c.

(** A literal pattern character under [re.IGNORECASE]. *)
Definition is_char_ic (lit : ascii) (c : ascii) : bool :=
  Ascii.eqb (lower_char c) (lower_char lit).

End Chars.

(* ===================================================================== *)
(** ** A backtracking matcher for the [re] fragment the program uses *)
(* ===================================================================== *)

Module Re.

Import Chars.

(** The patterns of the program are built from character classes, greedy
    repetitions of a class, the word boundary, concatenation, alternation
    and capturing groups. *)
Inductive regex : Type :=
| Eps
| Chr (cls : ascii -> bool)
| Rep (cls : ascii -> bool) (lo : nat) (hi : option nat)
| WordB
| Seq (r1 r2 : regex)
| Alt (r1 r2 : regex)
| Group (n : nat) (r : regex).

Declare Scope regex_scope.
Delimit Scope regex_scope with re.
Bind Scope regex_scope with regex.
Infix ";;" := Seq (at level 61, right associativity) : regex_scope.
Infix "<|>" := Alt (at level 62, right associativity) : regex_scope.

(** A position of the matcher: the character before it, the text after it,
    and the groups closed so far (most recent first). *)
Record mstate : Type := MState {
  m_prev : option ascii;
  m_rest : list ascii;
  m_groups : list (nat * list ascii)
}.

Definition is_word_opt (o : option ascii) : bool :=
  match o with Some c => cls_word c | None => false end.

Definition at_boundary (st : mstate) : bool :=
  xorb (is_word_opt (m_prev st)) (is_word_opt (hd_error (m_rest st))).

Definition hi_open (hi : option nat) : bool :=
  match hi with Some 0 => false | _ => true end.

(** Greedy [cls{lo,hi}]: the positions after the repetition, longest first. *)
Fixpoint rep_greedy (cls : ascii -> bool) (lo : nat) (hi : option nat)
    (prev : option ascii) (rest : list ascii)
  : list (option ascii * list ascii) :=
  let stop := if Nat.eqb lo 0 then [(prev, rest)] else [] in
  match rest with
  | a :: rest' =>
      if cls a && hi_open hi
      then rep_greedy cls (Nat.pred lo) (option_map Nat.pred hi) (Some a) rest'
           ++ stop
      else stop
  | [] => stop
  end.

Definition consumed_between (before after : list ascii) : list ascii :=
  firstn (length before - length after) before.

(** All the ways [r] matches at [st], in the order the backtracking matcher
    of [re] tries them. *)
Fixpoint exec (r : regex) (st : mstate) : list mstate :=
  match r with
  | Eps => [st]
  | Chr cls =>
      match m_rest st with
      | a :: rest' =>
          if cls a then [MState (Some a) rest' (m_groups st)] else []
      | [] => []
      end
  | Rep cls lo hi =>
      map (fun pr => MState (fst pr) (snd pr) (m_groups st))
          (rep_greedy cls lo hi (m_prev st) (m_rest st))
  | WordB => if at_boundary st then [st] else []
  | Seq r1 r2 => flat_map (exec r2) (exec r1 st)
  | Alt r1 r2 => exec r1 st ++ exec r2 st
  | Group n r =>
      map (fun st' =>
             MState (m_prev st') (m_rest st')
                    ((n, consumed_between (m_rest st) (m_rest st'))
                       :: m_groups st'))
          (exec r st)
  end.

(** A match object: the whole match, the groups, and what follows. *)
Record Match : Type := MkMatch {
  group0 : list ascii;
  groups : list (nat * list ascii);
  after_match : list ascii
}.

Fixpoint assoc_group (n : nat) (gs : list (nat * list ascii))
  : option (list ascii) :=
  match gs with
  | [] => None
  | (k, v) :: gs' => if Nat.eqb k n then Some v else assoc_group n gs'
  end.

(** [m.group(n)] for [n >= 1]; [None] when the group took no part. *)
Definition group (m : Match) (n : nat) : option (list ascii) :=
  assoc_group n (groups m).

(** [m.lastindex]: the index of the group closed last. *)
Definition lastindex (m : Match) : option nat :=
  match groups m with
  | [] => None
  | (n, _) :: _ => Some n
  end.

(** The first alternative that succeeds at one start position. *)
Definition match_at (r : regex) (prev : option ascii) (rest : list ascii)
  : option Match :=
  match exec r (MState prev rest []) with
  | st :: _ =>
      Some (MkMatch (consumed_between rest (m_rest st)) (m_groups st)
                    (m_rest st))
  | [] => None
  end.

(** [re.search]: the leftmost start position with a match. *)
Fixpoint search_from (r : regex) (prev : option ascii) (rest : list ascii)
  : option Match :=
  match match_at r prev rest with
  | Some m => Some m
  | None =>
      match rest with
      | [] => None
      | a :: rest' => search_from r (Some a) rest'
      end
  end.

Definition re_search (r : regex) (text : list ascii) : option Match :=
  search_from r None text.

(** [re.match]: a match at the start of the text only. *)
Definition re_match (r : regex) (text : list ascii) : option Match :=
  match_at r None text.

(** A literal under [re.IGNORECASE]. *)
Fixpoint lit_ic (s : list ascii) : regex :=
  match s with
  | [] => Eps
  | a :: s' => Seq (Chr (is_char_ic a)) (lit_ic s')
  end.

End Re.

(* ===================================================================== *)
(** ** The invoice patterns of both extractors *)
(* ===================================================================== *)

Module Patterns.

Import Chars Re.
Local Open Scope regex_scope.

(** [r'\b([A-Z]{2,4}\d{6,})\b'] *)
Definition pat_letters_digits : regex :=
  WordB ;; Group 1 (Rep cls_AZ 2 (Some 4) ;; Rep cls_digit 6 None) ;; WordB.

(** [r'\b([A-Z]+-\d+)\b'] *)
Definition pat_letters_hyphen_digits : regex :=
  WordB ;;
  Group 1 (Rep cls_AZ 1 None ;; Chr (is_code 45) ;; Rep cls_digit 1 None) ;;
  WordB.

(** [r'\bfactura\s+([A-Z0-9-]+)'] *)
Definition pat_factura_token : regex :=
  WordB ;; lit_ic (list_ascii_of_string "factura") ;;
  Rep cls_space 1 None ;; Group 1 (Rep cls_AZ09_hyphen 1 None).

(** [r'\b([A-Z]{2}\d{9})\b'] *)
Definition pat_two_letters_nine_digits : regex :=
  WordB ;; Group 1 (Rep cls_AZ 2 (Some 2) ;; Rep cls_digit 9 (Some 9)) ;; WordB.

(** [r'\b([A-Z0-9]{32})\b'] *)
Definition pat_cufe : regex :=
  WordB ;; Group 1 (Rep cls_AZ09 32 (Some 32)) ;; WordB.

(** [match.group(1) if match.lastindex else match.group(0)] *)
Definition matched_identifier (m : Match) : option string :=
  match lastindex m with
  | Some (S _) => option_map string_of_list_ascii (group m 1)
  | _ => Some (string_of_list_ascii (group0 m))
  end.

(** The [for pattern in invoice_patterns] loop with its early [return]. *)
Fixpoint first_pattern_match (patterns : list regex) (text : string)
  : option (option string) :=
  match patterns with
  | [] => None
  | pattern :: patterns' =>
      match re_search pattern (list_ascii_of_string text) with
      | Some m => Some (matched_identifier m)
      | None => first_pattern_match patterns' text
      end
  end.

(** The trailing CUFE search, [cufe_match.group(1)]. *)
Definition cufe_search (text : string) : option string :=
  match re_search pat_cufe (list_ascii_of_string text) with
  | Some m => option_map string_of_list_ascii (group m 1)
  | None => None
  end.

Definition extract_with (patterns : list regex) (text : string)
  : option string :=
  match first_pattern_match patterns text with
  | Some found => found
  | None => cufe_search text
  end.

(** What one pattern alone finds in a text. *)
Definition found_by (pattern : regex) (text : string) : option string :=
  match re_search pattern (list_ascii_of_string text) with
  | Some m => matched_identifier m
  | None => None
  end.

Definition matches (pattern : regex) (text : string) : bool :=
  match re_search pattern (list_ascii_of_string text) with
  | Some _ => true
  | None => false
  end.

End Patterns.

(* ===================================================================== *)
(** ** flows/custom_agent.py: the extractor *)
(* ===================================================================== *)

Module Flow.

Import Re Patterns.

Definition invoice_patterns : list regex :=
  [ pat_letters_digits; pat_letters_hyphen_digits; pat_factura_token ].

Definition _extract_invoice_identifier_from_text (text : string)
  : option string :=
  extract_with invoice_patterns text.

End Flow.

(* ===================================================================== *)
(** ** services/custom_agent_service.py: extractor and thread id *)
(* ===================================================================== *)

Module Service.

Import Chars Re Patterns.

Definition invoice_patterns : list regex :=
  [ pat_letters_digits; pat_letters_hyphen_digits; pat_factura_token;
    pat_two_letters_nine_digits ].

Definition _extract_invoice_identifier (question : string) : option string :=
  extract_with invoice_patterns question.

(** [s.lower()] and [s.replace('-', '_')]. *)
Definition str_lower (s : string) : string :=
  string_of_list_ascii (map lower_char (list_ascii_of_string s)).

Definition hyphen_to_underscore (c : ascii) : ascii :=
  if is_code 45 c then ascii_of_N 95 else c.

Definition replace_hyphens (s : string) : string :=
  string_of_list_ascii (map hyphen_to_underscore (list_ascii_of_string s)).

(** [invoice_id.lower().replace('-', '_')] *)
Definition normalize_identifier (invoice_id : string) : string :=
  replace_hyphens (str_lower invoice_id).

(** Truth value of an [Optional[str]]: neither [None] nor empty. *)
Definition truthy (o : option string) : bool :=
  match o with
  | Some (String _ _) => true
  | _ => false
  end.

(** The text of an [Optional[str]] known to be a string. *)
Definition text_of (o : option string) : string :=
  match o with Some s => s | None => "" end.

Section ThreadId.

(** [hashlib.md5(question.encode()).hexdigest()], a function of the
    question text supplied by the runtime. *)
Variable md5_hexdigest : string -> string.

Definition _generate_thread_id (question : string) : string :=
  let invoice_id := _extract_invoice_identifier question in
  if truthy invoice_id then
    "invoice_" ++ normalize_identifier (text_of invoice_id)
  else
    let question_hash := substring 0 8 (md5_hexdigest question) in
    "query_" ++ question_hash.

End ThreadId.

End Service.


(* ===================================================================== *)
(** ** Exceptions *)
(* ===================================================================== *)

Module Exc.

(** The exceptions the modelled code can meet, with their [str(e)]. *)
Inductive exc : Type :=
| ValueError (msg : string)
| OverflowError (msg : string)
| IndexError (msg : string)
| OtherException (msg : string).

Definition str_exc (e : exc) : string :=
  match e with
  | ValueError msg | OverflowError msg | IndexError msg
  | OtherException msg => msg
  end.

Inductive res (A : Type) : Type :=
| Ok (a : A)
| Raise (e : exc).
Arguments Ok {A} a.
Arguments Raise {A} e.

Definition bind {A B : Type} (x : res A) (f : A -> res B) : res B :=
  match x with
  | Ok a => f a
  | Raise e => Raise e
  end.

(** [try: body except Exception as e: handler(e)] *)
Definition try_except {A : Type} (body : res A) (handler : exc -> res A)
  : res A :=
  match body with
  | Ok a => Ok a
  | Raise e => handler e
  end.

End Exc.

(* ===================================================================== *)
(** ** [datetime.date], [timedelta] and [datetime.strptime] *)
(* ===================================================================== *)

Module Dates.

Import Chars Re Exc.
Local Open Scope Z_scope.

Definition MINYEAR : Z := 1.
Definition MAXYEAR : Z := 9999.

Definition is_leap (y : Z) : bool :=
  (y mod 4 =? 0) && (negb (y mod 100 =? 0) || (y mod 400 =? 0)).

Definition days_in_month (y m : Z) : Z :=
  if m =? 2 then (if is_leap y then 29 else 28)
  else if (m =? 4) || (m =? 6) || (m =? 9) || (m =? 11) then 30
  else 31.

Definition days_before_year (y : Z) : Z :=
  let y' := y - 1 in y' * 365 + y' / 4 - y' / 100 + y' / 400.

Definition days_before_month (y m : Z) : Z :=
  nth (Z.to_nat (m - 1)) [0; 31; 59; 90; 120; 151; 181; 212; 243; 273; 304; 334] 0
  + (if (2 <? m) && is_leap y then 1 else 0).

(** The proleptic Gregorian ordinal, 0001-01-01 being day 1. *)
Definition ymd2ord (y m d : Z) : Z :=
  days_before_year y + days_before_month y m + d.

(** A [date] is identified with its ordinal [date.toordinal()]. *)
Record date : Type := Date { toordinal : Z }.

Definition date_min : date := Date 1.
Definition date_max : date := Date (ymd2ord 9999 12 31).

(** [date(year, month, day)], a [ValueError] when the fields are out of
    range. *)
Definition make_date (y m d : Z) : res date :=
  if negb ((MINYEAR <=? y) && (y <=? MAXYEAR))
  then Raise (ValueError "year is out of range")
  else if negb ((1 <=? m) && (m <=? 12))
  then Raise (ValueError "month must be in 1..12")
  else if negb ((1 <=? d) && (d <=? days_in_month y m))
  then Raise (ValueError "day is out of range for month")
  else Ok (Date (ymd2ord y m d)).

Definition str_of_Z (z : Z) : string := NilZero.string_of_int (Z.to_int z).

(** [timedelta(days=n)]; the magnitude is bounded by 999999999 days. *)
Definition timedelta_days (n : Z) : res Z :=
  if Z.abs n <=? 999999999 then Ok n
  else if (-2147483648 <=? n) && (n <=? 2147483647)
  then Raise (OverflowError
                ("days=" ++ str_of_Z n ++ "; must have magnitude <= 999999999"))
  else Raise (OverflowError "Python int too large to convert to C int").

(** [d + delta] *)
Definition date_add (d : date) (delta : Z) : res date :=
  let o := toordinal d + delta in
  if (toordinal date_min <=? o) && (o <=? toordinal date_max)
  then Ok (Date o)
  else Raise (OverflowError "date value out of range").

(** [(a - b).days] *)
Definition date_diff_days (a b : date) : Z := toordinal a - toordinal b.

(** *** [strptime] *)

(** Group names of the format regex: the code of the directive letter. *)
Definition g_Y : nat := 89.
Definition g_m : nat := 109.
Definition g_d : nat := 100.

Local Open Scope regex_scope.

(** [(?P<Y>\d\d\d\d)] *)
Definition re_Y : regex :=
  Group g_Y (Chr cls_digit ;; Chr cls_digit ;; Chr cls_digit ;; Chr cls_digit).

(** [(?P<m>1[0-2]|0[1-9]|[1-9])] *)
Definition re_m : regex :=
  Group g_m ((Chr (is_code 49) ;; Chr (in_range 48 50))
             <|> (Chr (is_code 48) ;; Chr (in_range 49 57))
             <|> Chr (in_range 49 57)).

(** [(?P<d>3[0-1]|[1-2]\d|0[1-9]|[1-9]| [1-9])] *)
Definition re_d : regex :=
  Group g_d ((Chr (is_code 51) ;; Chr (in_range 48 49))
             <|> (Chr (in_range 49 50) ;; Chr cls_digit)
             <|> (Chr (is_code 48) ;; Chr (in_range 49 57))
             <|> Chr (in_range 49 57)
             <|> (Chr (is_code 32) ;; Chr (in_range 49 57))).

(** The regex of a format string: [%Y], [%m], [%d] are replaced by their
    groups and every other character (the formats of the program use [-]
    and [/]) stands for itself; another directive is a [ValueError]. *)
Fixpoint pattern (format : list ascii) : option regex :=
  match format with
  | [] => Some Eps
  | c :: format' =>
      if is_code 37 c then
        match format' with
        | k :: format'' =>
            let directive :=
              if is_code 89 k then Some re_Y
              else if is_code 109 k then Some re_m
              else if is_code 100 k then Some re_d
              else None in
            match directive, pattern format'' with
            | Some r, Some rest => Some (r ;; rest)
            | _, _ => None
            end
        | [] => None
        end
      else option_map (Seq (Chr (is_char_ic c))) (pattern format')
  end.

(** [int(text)] on the text of a group: digits, after an optional blank. *)
Definition int_of_group (w : list ascii) : Z :=
  fold_left (fun acc c => if cls_digit c
                          then 10 * acc + Z.of_N (code c - 48) else acc)
            w 0.

Definition group_int (m : Match) (g : nat) : Z :=
  match group m g with
  | Some w => int_of_group w
  | None => 0
  end.

(** [datetime.strptime(data_string, format).date()] *)
Definition strptime (data_string format : string) : res date :=
  match pattern (list_ascii_of_string format) with
  | None => Raise (ValueError "bad directive in format")
  | Some format_regex =>
      match re_match format_regex (list_ascii_of_string data_string) with
      | None => Raise (ValueError "time data does not match format")
      | Some found =>
          match after_match found with
          | _ :: _ => Raise (ValueError "unconverted data remains")
          | [] =>
              make_date (group_int found g_Y) (group_int found g_m)
                        (group_int found g_d)
          end
      end
  end.

(** [s.strip()] *)
Fixpoint lstrip (s : list ascii) : list ascii :=
  match s with
  | c :: s' => if cls_space c then lstrip s' else s
  | [] => []
  end.

Definition strip (s : string) : string :=
  string_of_list_ascii
    (rev (lstrip (rev (lstrip (list_ascii_of_string s))))).

End Dates.

(* ===================================================================== *)
(** ** mcp_server/custom_server.py: [calcular_vencimiento] *)
(* ===================================================================== *)

Module Server.

Import Chars Exc Dates.
Local Open Scope Z_scope.

(** The values of the result dictionary.  [JDate d] is the text
    [d.strftime("%Y-%m-%d")]. *)
Inductive json : Type :=
| JNull
| JBool (b : bool)
| JInt (z : Z)
| JStr (s : string)
| JDate (d : date).

(** The dictionary handed to [json.dumps]. *)
Record result : Type := Result {
  fecha_emision : json;
  fecha_vencimiento : json;
  vencida : json;
  dias_restantes : json;
  mensaje : json;
  error : json
}.

(** The argument [dias_credito] as the function may receive it: an [int],
    or another object, given by what [int(...)] does on it. *)
Inductive py_object : Type :=
| PyInt (z : Z)
| PyOther (int_outcome : res Z).

(** [int(x)] *)
Definition py_int (x : py_object) : res Z :=
  match x with
  | PyInt z => Ok z
  | PyOther int_outcome => int_outcome
  end.

Definition formatos_fecha : list string :=
  [ "%Y-%m-%d"; "%d-%m-%Y"; "%d/%m/%Y"; "%Y/%m/%d" ].

(** The [for formato in formatos_fecha] loop: [break] on the first format
    that parses, [continue] on a [ValueError]. *)
Fixpoint parse_fecha (formatos : list string) (fecha_emision : string)
  : res (option date) :=
  match formatos with
  | [] => Ok None
  | formato :: formatos' =>
      match strptime (strip fecha_emision) formato with
      | Ok d => Ok (Some d)
      | Raise (ValueError _) => parse_fecha formatos' fecha_emision
      | Raise e => Raise e
      end
  end.

Definition o_acute : string := String (ascii_of_N 243) "".
Definition i_acute : string := String (ascii_of_N 237) "".

Definition mensaje_vencida (dias_restantes : Z) : string :=
  "La factura venci" ++ o_acute ++ " hace " ++ str_of_Z (- dias_restantes)
  ++ " d" ++ i_acute ++ "as.".

Definition mensaje_faltan (dias_restantes : Z) : string :=
  "Faltan " ++ str_of_Z dias_restantes ++ " d" ++ i_acute
  ++ "as para el vencimiento.".

Definition parse_error_message (fecha_emision : string) : string :=
  "No se pudo parsear la fecha '" ++ fecha_emision
  ++ "'. Use formato YYYY-MM-DD (ej: 2025-10-03)".

(** The body of the [try] block; [hoy] is [datetime.now().date()]. *)
Definition calcular_vencimiento_try (fecha_emision : string)
    (dias_credito : py_object) (hoy : date) : res result :=
  bind (parse_fecha formatos_fecha fecha_emision) (fun fecha_emision_dt =>
  match fecha_emision_dt with
  | None => Raise (ValueError (parse_error_message fecha_emision))
  | Some fecha_emision_dt =>
      bind (py_int dias_credito) (fun dias_credito =>
      bind (timedelta_days dias_credito) (fun delta =>
      bind (date_add fecha_emision_dt delta) (fun fecha_vencimiento =>
      let dias_restantes := date_diff_days fecha_vencimiento hoy in
      let vencida := dias_restantes <? 0 in
      let mensaje :=
        if vencida then mensaje_vencida dias_restantes
        else mensaje_faltan dias_restantes in
      Ok {| fecha_emision := JDate fecha_emision_dt;
            fecha_vencimiento := JDate fecha_vencimiento;
            vencida := JBool vencida;
            dias_restantes := JInt dias_restantes;
            mensaje := JStr mensaje;
            error := JNull |})))
  end).

(** The [except Exception as e] handler. *)
Definition error_result (fecha_emision : string) (e : exc) : result :=
  {| fecha_emision := JStr fecha_emision;
     fecha_vencimiento := JNull;
     vencida := JNull;
     dias_restantes := JNull;
     mensaje :=
       JStr ("Hubo un error al intentar calcular la fecha de vencimiento: "
             ++ str_exc e);
     error := JStr (str_exc e) |}.

Definition calcular_vencimiento (fecha_emision : string)
    (dias_credito : py_object) (hoy : date) : res result :=
  try_except (calcular_vencimiento_try fecha_emision dias_credito hoy)
             (fun e => Ok (error_result fecha_emision e)).

End Server.

(* ===================================================================== *)
(** ** flows/custom_agent.py: state, DECIDE and ACT;
       services/custom_agent_service.py: the state [ask_custom] starts from *)
(* ===================================================================== *)

Module Agent.

Import Chars Exc Flow Service.

(** What a tool hands back: a [str], or another object given by its
    [str(...)] rendering. *)
Inductive tool_value : Type :=
| VStr (s : string)
| VOther (rendering : string).

Definition str_value (v : tool_value) : string :=
  match v with VStr s => s | VOther s => s end.

(** [{"raw_text": ..., "extracted": ...}] *)
Record invoice_payload : Type := Payload {
  raw_text : string;
  extracted : bool
}.

Definition str_upper (s : string) : string :=
  string_of_list_ascii (map upper_char (list_ascii_of_string s)).

Section WithRuntime.

(** The outside world the language model and the tools act on, and the
    type of tool arguments. *)
Variable World : Type.
Variable Args : Type.

(** The text of [_get_capabilities_prompt()]. *)
Variable system_prompt : string.

Record ToolCall : Type := MkToolCall {
  tc_name : string;
  tc_args : Args;
  tc_id : string
}.

Inductive Message : Type :=
| SystemMessage (content : string)
| HumanMessage (content : string)
| AIMessage (content : string) (tool_calls : list ToolCall)
| ToolMessage (content : string) (tool_call_id : string).

Record AgentState : Type := MkState {
  messages : list Message;
  rag_invoice : option invoice_payload
}.

(** What a node returns: the keys present in the returned dictionary. *)
Record Update : Type := MkUpdate {
  u_messages : list Message;
  u_rag_invoice : option invoice_payload
}.

(** An awaited call acts on the world and returns or raises. *)
Definition M (A : Type) : Type := World -> res A * World.

(** [tool.ainvoke(tool_input)] and [model.ainvoke(messages)]. *)
Definition Tool : Type := Args -> M tool_value.
Definition Model : Type := list Message -> M Message.

(** *** DECIDE *)

(** The loop over [reversed(state["messages"])]: the identifier of the
    latest [HumanMessage] that carries one. *)
Fixpoint scan_current_invoice_id (reversed_messages : list Message)
    (current_invoice_id : option string) : option string :=
  match reversed_messages with
  | [] => current_invoice_id
  | HumanMessage content :: older =>
      let current_invoice_id :=
        _extract_invoice_identifier_from_text content in
      if truthy current_invoice_id then current_invoice_id
      else scan_current_invoice_id older current_invoice_id
  | _ :: older => scan_current_invoice_id older current_invoice_id
  end.

Definition current_invoice_id_of (state : AgentState) : option string :=
  scan_current_invoice_id (rev (messages state)) None.

(** The block that drops the cached invoice when another invoice is asked
    about; it assigns [state["rag_invoice"] = None] in the node's own copy
    of the state. *)
Definition clear_if_different (state : AgentState) : AgentState :=
  let current_invoice_id := current_invoice_id_of state in
  match rag_invoice state with
  | Some payload =>
      if truthy current_invoice_id then
        let prev_invoice_text := raw_text payload in
        let prev_invoice_id :=
          _extract_invoice_identifier_from_text prev_invoice_text in
        if truthy prev_invoice_id
           && negb (String.eqb (str_upper (text_of prev_invoice_id))
                               (str_upper (text_of current_invoice_id)))
        then MkState (messages state) None
        else state
      else state
  | None => state
  end.

Definition is_conversation_message (msg : Message) : bool :=
  match msg with
  | HumanMessage _ | AIMessage _ _ | ToolMessage _ _ => true
  | SystemMessage _ => false
  end.

Definition o_acute : string := String (ascii_of_N 243) "".

Definition context_msg (invoice_text : string) : string :=
  "Contexto: Ya tengo informaci" ++ o_acute
  ++ "n de factura obtenida del RAG ("
  ++ Dates.str_of_Z (Z.of_nat (String.length invoice_text))
  ++ " caracteres). Puedo usar esta informaci" ++ o_acute
  ++ "n para responder preguntas o calcular vencimientos.".

(** The contextual note, present when an invoice text is cached. *)
Definition context_note (state : AgentState) : list Message :=
  match rag_invoice state with
  | Some payload =>
      match raw_text payload with
      | EmptyString => []
      | invoice_text => [HumanMessage (context_msg invoice_text)]
      end
  | None => []
  end.

(** The messages sent to the language model. *)
Definition build_prompt (state : AgentState) : list Message :=
  [SystemMessage system_prompt]
    ++ filter is_conversation_message (messages state)
    ++ context_note state.

Definition decide_prompt (state : AgentState) : list Message :=
  build_prompt (clear_if_different state).

(** [f"{type(response)}"], with the classes as [langchain_core] names
    them. *)
Definition type_text (response : Message) : string :=
  match response with
  | SystemMessage _ =>
      "<class 'langchain_core.messages.system.SystemMessage'>"
  | HumanMessage _ =>
      "<class 'langchain_core.messages.human.HumanMessage'>"
  | AIMessage _ _ => "<class 'langchain_core.messages.ai.AIMessage'>"
  | ToolMessage _ _ => "<class 'langchain_core.messages.tool.ToolMessage'>"
  end.

Definition decide_node (model : Model) (state : AgentState) : M Update :=
  fun w =>
    match model (decide_prompt state) w with
    | (Ok (AIMessage content calls), w') =>
        (Ok (MkUpdate (messages state ++ [AIMessage content calls]) None),
         w')
    | (Ok response, w') =>
        (Raise (ValueError ("Se esperaba AIMessage, pero se obtuvo "
                            ++ type_text response)), w')
    | (Raise e, w') => (Raise e, w')
    end.

(** *** ACT *)

Definition starts_with_Error (s : string) : bool := prefix "Error" s.

Definition unknown_tool_text (tool_name : string) : string :=
  "Error: herramienta '" ++ tool_name ++ "' no existe.".

Definition tool_failure_text (tool_name : string) (e : exc) : string :=
  "Error ejecutando herramienta " ++ tool_name ++ ": " ++ str_exc e.

(** The cache entry a returned value gives rise to. *)
Definition cache_entry (tool_name : string) (result : tool_value)
  : option invoice_payload :=
  if String.eqb tool_name "rag_get_invoice_data" then
    match result with
    | VStr s =>
        if negb (starts_with_Error s) then Some (Payload s false) else None
    | VOther _ => None
    end
  else None.

Section WithTools.

Variable tools_by_name : string -> option Tool.

(** One turn of the [for call in tool_calls] loop up to the [append]:
    the result and the cache entry written, if any. *)
Definition run_call (call : ToolCall) (w : World)
  : (tool_value * option invoice_payload) * World :=
  let tool_name := tc_name call in
  let tool_input := tc_args call in
  match tools_by_name tool_name with
  | None => ((VStr (unknown_tool_text tool_name), None), w)
  | Some tool =>
      match tool tool_input w with
      | (Ok result, w') => ((result, cache_entry tool_name result), w')
      | (Raise e, w') =>
          ((VStr (tool_failure_text tool_name e), None), w')
      end
  end.

Fixpoint tools_loop (tool_calls : list ToolCall)
    (new_messages : list Message)
    (updated_state : option invoice_payload) (w : World)
  : (list Message * option invoice_payload) * World :=
  match tool_calls with
  | [] => ((new_messages, updated_state), w)
  | call :: tool_calls' =>
      let '((result, entry), w') := run_call call w in
      let updated_state :=
        match entry with
        | Some payload => Some payload
        | None => updated_state
        end in
      tools_loop tool_calls'
        (new_messages ++ [ToolMessage (str_value result) (tc_id call)])
        updated_state w'
  end.

(** [getattr(last, "tool_calls", []) or []] *)
Definition tool_calls_of (last : Message) : list ToolCall :=
  match last with
  | AIMessage _ calls => calls
  | _ => []
  end.

Definition tools_node (state : AgentState) : M Update :=
  fun w =>
    match rev (messages state) with
    | [] => (Raise (IndexError "list index out of range"), w)
    | last :: _ =>
        let '((new_messages, updated_state), w') :=
          tools_loop (tool_calls_of last) [] None w in
        (Ok (MkUpdate new_messages updated_state), w')
    end.

End WithTools.

(** The [rag_invoice] channel after a node's update: overwritten when
    the key is present. *)
Definition rag_invoice_after (state : AgentState) (u : Update)
  : option invoice_payload :=
  match u_rag_invoice u with
  | Some payload => Some payload
  | None => rag_invoice state
  end.

(** *** The graph of [build_custom_agent] *)

(** The nodes: "decide" (the entry point), "tools", and [END]. *)
Inductive node : Type := node_decide | node_tools | node_END.

(** [should_continue] *)
Definition should_continue (state : AgentState) : res node :=
  match rev (messages state) with
  | [] => Raise (IndexError "list index out of range")
  | AIMessage _ (_ :: _) :: _ => Ok node_tools
  | _ :: _ => Ok node_END
  end.

(** The state of the graph after a node's update.  The [messages] channel
    merges by message id ([add_messages]): [decide_node] returns the whole
    conversation followed by the response, whose known messages stay in
    place and whose response is added at the end; [tools_node] returns
    new messages only, which are added at the end.  Ids given to new
    messages are taken to be fresh. *)
Definition after_decide (state : AgentState) (u : Update) : AgentState :=
  MkState (u_messages u) (rag_invoice_after state u).

Definition after_tools (state : AgentState) (u : Update) : AgentState :=
  MkState (messages state ++ u_messages u) (rag_invoice_after state u).

(** One node of the compiled graph and the edge that follows it. *)
Definition graph_step (model : Model)
    (tools_by_name : string -> option Tool)
    (at_node : node) (state : AgentState) : M (node * AgentState) :=
  fun w =>
    match at_node with
    | node_decide =>
        match decide_node model state w with
        | (Ok u, w') =>
            let state' := after_decide state u in
            match should_continue state' with
            | Ok next => (Ok (next, state'), w')
            | Raise e => (Raise e, w')
            end
        | (Raise e, w') => (Raise e, w')
        end
    | node_tools =>
        match tools_node tools_by_name state w with
        | (Ok u, w') => (Ok (node_decide, after_tools state u), w')
        | (Raise e, w') => (Raise e, w')
        end
    | node_END => (Ok (node_END, state), w)
    end.

(** [agent.ainvoke(state)] within a number of node executions; [None]
    when they do not suffice to reach [END]. *)
Fixpoint run_graph (fuel : nat) (model : Model)
    (tools_by_name : string -> option Tool)
    (at_node : node) (state : AgentState) (w : World)
  : option (res AgentState * World) :=
  match at_node with
  | node_END => Some (Ok state, w)
  | _ =>
      match fuel with
      | O => None
      | S fuel' =>
          match graph_step model tools_by_name at_node state w with
          | (Ok (next, state'), w') =>
              run_graph fuel' model tools_by_name next state' w'
          | (Raise e, w') => Some (Raise e, w')
          end
      end
  end.

(** *** [ask_custom] *)

(** The state every question starts from. *)
Definition initial_state (question : string) : AgentState :=
  MkState [HumanMessage question] None.

Definition content_of (msg : Message) : string :=
  match msg with
  | SystemMessage content | HumanMessage content
  | AIMessage content _ | ToolMessage content _ => content
  end.

Definition no_response : string :=
  "No se gener" ++ o_acute ++ " ninguna respuesta.".

Definition final_answer (result : AgentState) : string :=
  match rev (messages result) with
  | [] => no_response
  | last_msg :: _ => content_of last_msg
  end.

(** [ask_custom] once the agent is initialized.  The thread id only tags
    the configuration of the call: the graph is compiled without a
    checkpointer and nothing is read back from it. *)
Definition ask_custom (fuel : nat) (model : Model)
    (tools_by_name : string -> option Tool) (question : string) (w : World)
  : option (res string * World) :=
  let state := initial_state question in
  match run_graph fuel model tools_by_name node_decide state w with
  | Some (Ok result, w') => Some (Ok (final_answer result), w')
  | Some (Raise e, w') => Some (Raise e, w')
  | None => None
  end.

End WithRuntime.

Arguments MkToolCall {Args}.
Arguments tc_name {Args}.
Arguments tc_args {Args}.
Arguments tc_id {Args}.
Arguments SystemMessage {Args}.
Arguments HumanMessage {Args}.
Arguments AIMessage {Args}.
Arguments ToolMessage {Args}.
Arguments MkState {Args}.
Arguments messages {Args}.
Arguments rag_invoice {Args}.
Arguments MkUpdate {Args}.
Arguments u_messages {Args}.
Arguments u_rag_invoice {Args}.
Arguments scan_current_invoice_id {Args}.
Arguments current_invoice_id_of {Args}.
Arguments clear_if_different {Args}.
Arguments is_conversation_message {Args}.
Arguments context_note {Args}.
Arguments build_prompt {Args}.
Arguments decide_prompt {Args}.
Arguments type_text {Args}.
Arguments decide_node {World Args}.
Arguments run_call {World Args}.
Arguments tools_loop {World Args}.
Arguments tool_calls_of {Args}.
Arguments tools_node {World Args}.
Arguments rag_invoice_after {Args}.
Arguments should_continue {Args}.
Arguments after_decide {Args}.
Arguments after_tools {Args}.
Arguments graph_step {World Args}.
Arguments run_graph {World Args}.
Arguments initial_state {Args}.
Arguments content_of {Args}.
Arguments final_answer {Args}.
Arguments ask_custom {World Args}.

End Agent.

(* ===================================================================== *)
(** ** mcp_server/custom_server.py: service URLs and [rag_get_invoice_data] *)
(* ===================================================================== *)

Module RagTool.

Import Chars Exc Service Agent.

(** [s.rstrip('/')] *)
Fixpoint drop_slashes (reversed : list ascii) : list ascii :=
  match reversed with
  | c :: rest => if is_code 47 c then drop_slashes rest else reversed
  | [] => []
  end.

Definition rstrip_slash (s : string) : string :=
  string_of_list_ascii (rev (drop_slashes (rev (list_ascii_of_string s)))).

(** [os.getenv(name, default)] for a variable that is set or not. *)
Definition getenv (value : option string) (default : string) : string :=
  match value with
  | Some v => v
  | None => default
  end.

(** [_get_liquidaciones_service_url] and [_get_provedores_service_url],
    for the value of GREENTRAVEL_GATEWAY_URL in the environment. *)
Definition _get_liquidaciones_service_url (gateway : option string) : string :=
  let base_url := getenv gateway "http://localhost" in
  rstrip_slash base_url.

Definition _get_provedores_service_url (gateway : option string) : string :=
  let base_url := getenv gateway "http://localhost" in
  rstrip_slash base_url.

(** The URL the tools on liquidaciones and on provedores start from:
    [f"{LIQUIDACIONES_SERVICE_URL.rstrip('/')}/api/v1/liquidaciones"]. *)
Definition liquidaciones_url (gateway : option string) : string :=
  rstrip_slash (_get_liquidaciones_service_url gateway)
  ++ "/api/v1/liquidaciones".

Definition provedores_url (gateway : option string) : string :=
  rstrip_slash (_get_provedores_service_url gateway)
  ++ "/api/v1/provedores".

(** [RAG_BASE_URL] and [f"{RAG_BASE_URL.rstrip('/')}/api/v1/ask"]. *)
Definition RAG_BASE_URL (value : option string) : string :=
  getenv value "http://34.63.203.124".

Definition rag_url (value : option string) : string :=
  rstrip_slash (RAG_BASE_URL value) ++ "/api/v1/ask".

(** *** The query *)

Definition o_acute : string := String (ascii_of_N 243) "".
Definition u_acute : string := String (ascii_of_N 250) "".

(** The three [if ...: query_parts.append(...)]. *)
Definition query_parts (invoice_number cufe provider_nit : option string)
  : list string :=
  let query_parts : list string := [] in
  let query_parts :=
    if truthy invoice_number
    then query_parts
           ++ [("factura n" ++ u_acute ++ "mero "
                ++ text_of invoice_number)%string]
    else query_parts in
  let query_parts :=
    if truthy cufe
    then query_parts ++ [("CUFE " ++ text_of cufe)%string]
    else query_parts in
  if truthy provider_nit
  then query_parts ++ [("proveedor NIT " ++ text_of provider_nit)%string]
  else query_parts.

Definition generic_query : string :=
  "Dame toda la informaci" ++ o_acute ++ "n de la factura".

Definition build_query (invoice_number cufe provider_nit : option string)
  : string :=
  match query_parts invoice_number cufe provider_nit with
  | [] => generic_query
  | parts =>
      "Dame toda la informaci" ++ o_acute ++ "n de la factura con "
      ++ String.concat " y " parts
  end.

(** The JSON body of the request. *)
Record rag_payload : Type := RagPayload {
  question : string;
  top_k : nat;
  collection : string;
  use_reranking : bool;
  use_query_rewriting : bool
}.

Definition payload_of (query : string) : rag_payload :=
  RagPayload query 5 "semana3_test_collection" true true.

(** *** The exchange with the retrieval service *)

(** The value under ["answer"]: a text, another value with a length (a
    list, an object), given by its rendering, or a value on which [len]
    raises (null, a number, a boolean), given by the message. *)
Inductive answer_value : Type :=
| AText (s : string)
| ASized (rendering : string)
| AUnsized (len_error : string).

(** What the [try] block meets up to [invoice_text = result["answer"]]:
    an [httpx.HTTPError] from [post] or [raise_for_status]; another
    exception (a body that is not JSON, a body that cannot be indexed);
    or a result, in which ["answer"] is present or not. *)
Inductive exchange : Type :=
| RaisedHTTPError (msg : string)
| RaisedOther (msg : string)
| Result (answer : option answer_value).

Section WithService.

Variable World : Type.

(** [client.post(rag_url, json=payload)] and what follows from the
    response. *)
Variable post : string -> rag_payload -> World -> exchange * World.

(** The value of RAG_BASE_URL in the environment. *)
Variable rag_base_url : option string.

Record rag_args : Type := RagArgs {
  invoice_number : option string;
  cufe : option string;
  provider_nit : option string
}.

Definition rag_get_invoice_data (args : rag_args) : M World tool_value :=
  fun w =>
    let query :=
      build_query (invoice_number args) (cufe args) (provider_nit args) in
    let payload := payload_of query in
    match post (rag_url rag_base_url) payload w with
    | (Result None, w') =>
        (Ok (VStr "Error: La respuesta del RAG no contiene el campo 'answer'"),
         w')
    | (Result (Some (AText invoice_text)), w') =>
        (Ok (VStr invoice_text), w')
    | (Result (Some (ASized rendering)), w') =>
        (Ok (VOther rendering), w')
    | (Result (Some (AUnsized len_error)), w') =>
        (Ok (VStr ("Error obteniendo datos de factura: " ++ len_error)), w')
    | (RaisedHTTPError msg, w') =>
        (Ok (VStr ("Error HTTP consultando RAG: " ++ msg)), w')
    | (RaisedOther msg, w') =>
        (Ok (VStr ("Error obteniendo datos de factura: " ++ msg)), w')
    end.

End WithService.

Arguments RagArgs {_}.
Arguments rag_get_invoice_data {World}.

End RagTool.

(* ===================================================================== *)
(** ** services/custom_agent_service.py: the tools [initialize] keeps *)
(* ===================================================================== *)

Module ToolFilter.

Import Agent.

Definition greentravel_tools : list string :=
  [ "list_liquidaciones"; "get_liquidacion"; "create_liquidacion";
    "update_liquidacion"; "delete_liquidacion"; "get_liquidacion_stats";
    "list_provedores"; "get_provedor"; "create_provedor";
    "update_provedor"; "delete_provedor"; "get_provedor_stats";
    "rag_get_invoice_data"; "calcular_vencimiento" ]%string.

(** [name in greentravel_tools] *)
Definition is_greentravel (name : string) : bool :=
  existsb (String.eqb name) greentravel_tools.

Section WithLoadedTools.

Variable World : Type.
Variable Args : Type.

(** What [load_tools] hands back: the list of tools, each with its
    [name], and the dictionary of the tools by name. *)
Record loaded_tool : Type := LoadedTool {
  name : string;
  ainvoke : Tool World Args
}.

Variable tools : list loaded_tool.
Variable tools_by_name : string -> option (Tool World Args).

(** [[t for t in tools if t.name in greentravel_tools]] *)
Definition filtered_tools : list loaded_tool :=
  filter (fun t => is_greentravel (name t)) tools.

(** [{name: tool for name, tool in tools_by_name.items()
      if name in greentravel_tools}] *)
Definition filtered_tools_by_name (tool_name : string)
  : option (Tool World Args) :=
  if is_greentravel tool_name then tools_by_name tool_name else None.

(** The tools bound to the model and the registry given to the graph,
    after the fallback [if not filtered_tools]. *)
Definition bound_tools : list loaded_tool :=
  match filtered_tools with
  | [] => tools
  | kept => kept
  end.

Definition agent_registry (tool_name : string) : option (Tool World Args) :=
  match filtered_tools with
  | [] => tools_by_name tool_name
  | _ :: _ => filtered_tools_by_name tool_name
  end.

End WithLoadedTools.

Arguments LoadedTool {World Args}.
Arguments name {World Args}.
Arguments ainvoke {World Args}.
Arguments filtered_tools {World Args}.
Arguments filtered_tools_by_name {World Args}.
Arguments bound_tools {World Args}.
Arguments agent_registry {World Args}.

End ToolFilter.
(* ===================================================================== *)
(** ** services/custom_agent_service.py: [initialize] and [ask_custom] *)
(* ===================================================================== *)

Module CustomAgentService.

Import Exc Agent ToolFilter.

Section WithRuntime.

Variable World : Type.
Variable Args : Type.

(** The text of [_get_capabilities_prompt()]. *)
Variable system_prompt : string.

(** The MCP client, [load_tools] and [llm], which the service imports:
    [stdio_client(params)], its [__aenter__()],
    [ClientSession(read, write).__aenter__()], [session.initialize()],
    [load_tools(session)] and [llm.bind_tools(tools)]. *)
Variable ServerParameters : Type.
Variable StdioContext : Type.
Variable Streams : Type.
Variable ClientSession : Type.
Variable stdio_client : ServerParameters -> StdioContext.
Variable stdio_enter : StdioContext -> M World Streams.
Variable session_enter : Streams -> M World ClientSession.
Variable session_initialize : ClientSession -> M World unit.
Variable load_tools :
  ClientSession ->
  M World (list (loaded_tool World Args)
           * (string -> option (Tool World Args))).
Variable bind_tools :
  list (loaded_tool World Args) -> res (Model World Args).

(** The number of node executions the graph library allows one
    [ainvoke] (its recursion limit), and the text of the
    [GraphRecursionError] it raises when they do not reach [END]. *)
Variable recursion_limit : nat.
Variable recursion_error : string.

(** What [build_custom_agent] compiles: the graph of [graph_step] over the
    model and the registry bound into its two nodes. *)
Record CompiledGraph : Type := Graph {
  g_model : Model World Args;
  g_tools_by_name : string -> option (Tool World Args)
}.

Definition build_custom_agent (model : Model World Args)
    (tools_by_name : string -> option (Tool World Args))
    (rag_get_invoice_tool : option (Tool World Args)) : CompiledGraph :=
  Graph model tools_by_name.

(** The attributes of the service object ([_lock] and [checkpointer]
    apart, which no method reads a value from). *)
Record Service : Type := MkService {
  server_parameters : option ServerParameters;
  _stdio_ctx : option StdioContext;
  _session : option ClientSession;
  agent : option CompiledGraph
}.

(** [__init__] and [set_server_parameters]. *)
Definition new_service : Service := MkService None None None None.

Definition set_server_parameters (self : Service)
    (params : ServerParameters) : Service :=
  MkService (Some params) (_stdio_ctx self) (_session self) (agent self).

(** A method: it acts on the object and on the world, and returns or
    raises. *)
Definition Method (A : Type) : Type :=
  Service -> World -> (res A * Service) * World.

Definition initialize : Method unit :=
  fun self w =>
    match _session self with
    | Some _ => ((Ok tt, self), w)
    | None =>
        match server_parameters self with
        | None =>
            ((Raise (ValueError
                       "MCP server parameters not set. Call set_server_parameters() first"),
              self), w)
        | Some params =>
            let ctx := stdio_client params in
            let self :=
              MkService (server_parameters self) (Some ctx)
                        (_session self) (agent self) in
            match stdio_enter ctx w with
            | (Raise e, w) => ((Raise e, self), w)
            | (Ok streams, w) =>
            match session_enter streams w with
            | (Raise e, w) => ((Raise e, self), w)
            | (Ok session, w) =>
            let self :=
              MkService (server_parameters self) (_stdio_ctx self)
                        (Some session) (agent self) in
            match session_initialize session w with
            | (Raise e, w) => ((Raise e, self), w)
            | (Ok _, w) =>
            match load_tools session w with
            | (Raise e, w) => ((Raise e, self), w)
            | (Ok (tools, tools_by_name), w) =>
            let filtered_tools := bound_tools tools in
            let filtered_tools_by_name :=
              agent_registry tools tools_by_name in
            let rag_get_invoice_tool :=
              filtered_tools_by_name "rag_get_invoice_data"%string in
            match bind_tools filtered_tools with
            | Raise e => ((Raise e, self), w)
            | Ok model =>
                let self :=
                  MkService (server_parameters self) (_stdio_ctx self)
                            (_session self)
                            (Some (build_custom_agent
                                     model filtered_tools_by_name
                                     rag_get_invoice_tool)) in
                ((Ok tt, self), w)
            end end end end end
        end
    end.

(** [self.agent.ainvoke(state, config=config)]: the nodes of the graph
    from its entry point, [recursion_limit] executions at most. *)
Fixpoint ainvoke_from (steps : nat) (graph : CompiledGraph)
    (at_node : node) (state : AgentState Args) (w : World)
  : res (AgentState Args) * World :=
  match at_node with
  | node_END => (Ok state, w)
  | _ =>
      match steps with
      | O => (Raise (OtherException recursion_error), w)
      | S steps' =>
          match graph_step system_prompt (g_model graph)
                           (g_tools_by_name graph) at_node state w with
          | (Ok (next, state'), w') =>
              ainvoke_from steps' graph next state' w'
          | (Raise e, w') => (Raise e, w')
          end
      end
  end.

Definition ainvoke (graph : CompiledGraph) (state : AgentState Args)
  : M World (AgentState Args) :=
  ainvoke_from recursion_limit graph node_decide state.

(** [ask_custom].  The thread id only tags the configuration of the
    call: the graph is compiled without a checkpointer and nothing is read
    back from it. *)
Definition ask_custom (question : string) : Method string :=
  fun self w =>
    let '((initialized, self), w) :=
      match _session self, agent self with
      | Some _, Some _ => ((Ok tt, self), w)
      | _, _ => initialize self w
      end in
    match initialized with
    | Raise e => ((Raise e, self), w)
    | Ok _ =>
        let state := initial_state question in
        match agent self with
        | None =>
            ((Raise (OtherException
                       "'NoneType' object has no attribute 'ainvoke'"),
              self), w)
        | Some graph =>
            match ainvoke graph state w with
            | (Ok result, w) => ((Ok (final_answer result), self), w)
            | (Raise e, w) => ((Raise e, self), w)
            end
        end
    end.

End WithRuntime.

Arguments Graph {World Args}.
Arguments g_model {World Args}.
Arguments g_tools_by_name {World Args}.
Arguments build_custom_agent {World Args}.
Arguments MkService {World Args ServerParameters StdioContext ClientSession}.
Arguments server_parameters
  {World Args ServerParameters StdioContext ClientSession}.
Arguments _stdio_ctx {World Args ServerParameters StdioContext ClientSession}.
Arguments _session {World Args ServerParameters StdioContext ClientSession}.
Arguments agent {World Args ServerParameters StdioContext ClientSession}.
Arguments new_service
  {World Args ServerParameters StdioContext ClientSession}.
Arguments set_server_parameters
  {World Args ServerParameters StdioContext ClientSession}.
Arguments initialize
  {World Args ServerParameters StdioContext Streams ClientSession}.
Arguments ainvoke_from {World Args}.
Arguments ainvoke {World Args}.
Arguments ask_custom
  {World Args} system_prompt
  {ServerParameters StdioContext Streams ClientSession}.

End CustomAgentService.
(* ===================================================================== *)
(** ** Facts about the matcher *)
(* ===================================================================== *)

Module ReFacts.

Import Chars Re.

(** The character before the position reached after reading [w]. *)
Definition prev_after (prev : option ascii) (w : list ascii) : option ascii :=
  fold_left (fun _ a => Some a) w prev.

Definition within (hi : option nat) (n : nat) : Prop :=
  match hi with Some h => n <= h | None => True end.

Lemma rep_greedy_sound cls rest :
  forall lo hi prev p r',
    In (p, r') (rep_greedy cls lo hi prev rest) ->
    exists w, rest = w ++ r' /\ forallb cls w = true /\
              lo <= length w /\ within hi (length w) /\
              p = prev_after prev w.
Proof.
  induction rest as [|a rest IH]; intros lo hi prev p r' Hin.
  - simpl in Hin. destruct (Nat.eqb_spec lo 0) as [->|]; [|contradiction].
    destruct Hin as [[= <- <-]|[]].
    exists []. repeat split; auto. destruct hi; simpl; lia.
  - simpl in Hin.
    assert (Hstop :
      In (p, r') (if Nat.eqb lo 0 then [(prev, a :: rest)] else []) ->
      exists w, a :: rest = w ++ r' /\ forallb cls w = true /\
                lo <= length w /\ within hi (length w) /\
                p = prev_after prev w).
    { destruct (Nat.eqb_spec lo 0) as [->|]; [|contradiction].
      intros [[= <- <-]|[]]. exists []. repeat split; auto.
      destruct hi; simpl; lia. }
    destruct (cls a) eqn:Ha; simpl in Hin; [|auto].
    destruct (hi_open hi) eqn:Hh; [|auto].
    apply in_app_or in Hin as [Hin|Hin]; [|auto].
    apply IH in Hin as (w & -> & Hw & Hlo & Hhi & ->).
    exists (a :: w). simpl. rewrite Ha, Hw. repeat split; auto; [lia|].
    destruct hi as [[|h]|]; simpl in *; try discriminate; auto; lia.
Qed.

Lemma rep_greedy_complete cls w :
  forall lo hi prev r',
    forallb cls w = true -> lo <= length w -> within hi (length w) ->
    In (prev_after prev w, r') (rep_greedy cls lo hi prev (w ++ r')).
Proof.
  induction w as [|a w IH]; intros lo hi prev r' Hw Hlo Hhi.
  - simpl in *. assert (lo = 0) as -> by lia.
    destruct r' as [|b r']; simpl.
    + now left.
    + destruct (cls b && hi_open hi); [apply in_or_app; right|]; now left.
  - simpl in Hw. apply andb_true_iff in Hw as [Ha Hw].
    simpl. rewrite Ha. simpl.
    assert (hi_open hi = true) as ->.
    { destruct hi as [[|h]|]; simpl in *; auto; lia. }
    apply in_or_app. left. apply IH; auto.
    + simpl in Hlo. lia.
    + destruct hi as [[|h]|]; simpl in *; auto; lia.
Qed.

(** Every match consumes a prefix of the remaining text. *)
Lemma exec_suffix r :
  forall st st', In st' (exec r st) ->
                 exists w, m_rest st = w ++ m_rest st'.
Proof.
  induction r; intros st st' Hin; simpl in Hin.
  - destruct Hin as [<-|[]]. now exists [].
  - destruct (m_rest st) as [|a rest] eqn:E; [contradiction|].
    destruct (cls a); [|contradiction].
    destruct Hin as [<-|[]]. now exists [a].
  - apply in_map_iff in Hin as ([p r'] & <- & Hin).
    apply rep_greedy_sound in Hin as (w & E & _). now exists w.
  - destruct (at_boundary st); [|contradiction].
    destruct Hin as [<-|[]]. now exists [].
  - apply in_flat_map in Hin as (mid & H1 & H2).
    apply IHr1 in H1 as (w1 & E1). apply IHr2 in H2 as (w2 & E2).
    exists (w1 ++ w2). now rewrite <- app_assoc, <- E2.
  - apply in_app_or in Hin as [H|H]; eauto.
  - apply in_map_iff in Hin as (mid & <- & H). simpl. eauto.
Qed.

Lemma consumed_between_app (w r : list ascii) :
  consumed_between (w ++ r) r = w.
Proof.
  unfold consumed_between. rewrite length_app.
  replace (length w + length r - length r) with (length w) by lia.
  rewrite firstn_app, Nat.sub_diag, firstn_all. simpl. apply app_nil_r.
Qed.


(** [only P r]: every character [r] can read is in the class [P]. *)
Fixpoint only (P : ascii -> bool) (r : regex) : Prop :=
  match r with
  | Chr cls | Rep cls _ _ => forall c, cls c = true -> P c = true
  | Seq a b | Alt a b => only P a /\ only P b
  | Group _ b => only P b
  | Eps | WordB => True
  end.

(** A lower bound on the number of characters a match of [r] reads. *)
Fixpoint min_len (r : regex) : nat :=
  match r with
  | Chr _ => 1
  | Rep _ lo _ => lo
  | Seq a b => min_len a + min_len b
  | Alt a b => Nat.min (min_len a) (min_len b)
  | Group _ b => min_len b
  | Eps | WordB => 0
  end.

Lemma forallb_impl (P Q : ascii -> bool) (w : list ascii) :
  (forall c, P c = true -> Q c = true) ->
  forallb P w = true -> forallb Q w = true.
Proof.
  intros HPQ. induction w as [|a w IH]; simpl; auto.
  intros H. apply andb_true_iff in H as [Ha Hw].
  now rewrite (HPQ _ Ha), IH.
Qed.

Lemma exec_consumes P r :
  only P r ->
  forall st st', In st' (exec r st) ->
    exists w, m_rest st = w ++ m_rest st' /\ forallb P w = true /\
              min_len r <= length w.
Proof.
  induction r; intros Honly st st' Hin; simpl in Hin, Honly.
  - destruct Hin as [<-|[]]. exists []. simpl. auto.
  - destruct (m_rest st) as [|a rest] eqn:E; [contradiction|].
    destruct (cls a) eqn:Ha; [|contradiction].
    destruct Hin as [<-|[]]. exists [a]. simpl.
    rewrite (Honly _ Ha). auto.
  - apply in_map_iff in Hin as ([p r'] & <- & Hin).
    apply rep_greedy_sound in Hin as (w & E & Hw & Hlo & _).
    exists w. simpl. eauto using forallb_impl.
  - destruct (at_boundary st); [|contradiction].
    destruct Hin as [<-|[]]. exists []. simpl. auto.
  - destruct Honly as [Ho1 Ho2].
    apply in_flat_map in Hin as (mid & H1 & H2).
    destruct (IHr1 Ho1 _ _ H1) as (w1 & E1 & P1 & L1).
    destruct (IHr2 Ho2 _ _ H2) as (w2 & E2 & P2 & L2).
    exists (w1 ++ w2). rewrite <- app_assoc, <- E2, forallb_app, P1, P2.
    rewrite length_app. simpl. repeat split; auto. lia.
  - destruct Honly as [Ho1 Ho2].
    apply in_app_or in Hin as [H|H].
    + destruct (IHr1 Ho1 _ _ H) as (w & E & Pw & L). exists w.
      simpl. repeat split; auto. lia.
    + destruct (IHr2 Ho2 _ _ H) as (w & E & Pw & L). exists w.
      simpl. repeat split; auto. lia.
  - apply in_map_iff in Hin as (mid & <- & H). simpl. eauto.
Qed.

(** The groups of a pattern are all numbered 1 and wrap a body that reads
    at least one character, all of them in [P]. *)
Fixpoint wf_groups (P : ascii -> bool) (r : regex) : Prop :=
  match r with
  | Group n b => n = 1 /\ only P b /\ 1 <= min_len b /\ wf_groups P b
  | Seq a b | Alt a b => wf_groups P a /\ wf_groups P b
  | Eps | Chr _ | Rep _ _ _ | WordB => True
  end.

Definition good_group (P : ascii -> bool) (g : nat * list ascii) : Prop :=
  fst g = 1 /\ snd g <> [] /\ forallb P (snd g) = true.

Lemma exec_good P r :
  wf_groups P r ->
  forall st st', In st' (exec r st) ->
    Forall (good_group P) (m_groups st) ->
    Forall (good_group P) (m_groups st').
Proof.
  induction r; intros Hwf st st' Hin Hg; simpl in Hin, Hwf.
  - destruct Hin as [<-|[]]. auto.
  - destruct (m_rest st) as [|a rest]; [contradiction|].
    destruct (cls a); [|contradiction]. destruct Hin as [<-|[]]. auto.
  - apply in_map_iff in Hin as (pr & <- & _). auto.
  - destruct (at_boundary st); [|contradiction].
    destruct Hin as [<-|[]]. auto.
  - destruct Hwf as [W1 W2].
    apply in_flat_map in Hin as (mid & H1 & H2). eauto.
  - destruct Hwf as [W1 W2]. apply in_app_or in Hin as [H|H]; eauto.
  - destruct Hwf as (-> & Ho & Hmin & W).
    apply in_map_iff in Hin as (mid & <- & H). simpl.
    constructor; [|eauto].
    destruct (exec_consumes P r Ho _ _ H) as (w & E & Pw & L).
    rewrite E, consumed_between_app. repeat split; simpl; auto.
    intros ->. simpl in L. lia.
Qed.

(** [has_group r]: every way through [r] closes a group. *)
Fixpoint has_group (r : regex) : bool :=
  match r with
  | Group _ _ => true
  | Seq a b => has_group a || has_group b
  | Alt a b => has_group a && has_group b
  | Eps | Chr _ | Rep _ _ _ | WordB => false
  end.

Lemma exec_groups_grow r :
  forall st st', In st' (exec r st) ->
    length (m_groups st) + (if has_group r then 1 else 0)
    <= length (m_groups st').
Proof.
  induction r; intros st st' Hin; simpl in Hin; simpl has_group.
  - destruct Hin as [<-|[]]. lia.
  - destruct (m_rest st) as [|a rest]; [contradiction|].
    destruct (cls a); [|contradiction]. destruct Hin as [<-|[]]. simpl. lia.
  - apply in_map_iff in Hin as (pr & <- & _). simpl. lia.
  - destruct (at_boundary st); [|contradiction].
    destruct Hin as [<-|[]]. lia.
  - apply in_flat_map in Hin as (mid & H1 & H2).
    apply IHr1 in H1. apply IHr2 in H2.
    destruct (has_group r1), (has_group r2); simpl; lia.
  - apply in_app_or in Hin as [H|H]; [apply IHr1 in H|apply IHr2 in H];
      destruct (has_group r1), (has_group r2); simpl; lia.
  - apply in_map_iff in Hin as (mid & <- & H). apply IHr in H. simpl.
    destruct (has_group r); lia.
Qed.

Lemma search_from_match_at r rest :
  forall prev m, search_from r prev rest = Some m ->
                 exists prev' rest', match_at r prev' rest' = Some m.
Proof.
  induction rest as [|a rest IH]; intros prev m H; simpl in H.
  - destruct (match_at r prev []) eqn:E; [|discriminate].
    injection H as <-. eauto.
  - destruct (match_at r prev (a :: rest)) eqn:E.
    + injection H as <-. eauto.
    + eauto.
Qed.

(** A match of a well-formed pattern that closes a group has group 1 as its
    last group, and that group is a non-empty text over [P]. *)
Lemma match_at_group1 P r prev rest m :
  wf_groups P r -> has_group r = true ->
  match_at r prev rest = Some m ->
  exists v gs, groups m = (1, v) :: gs /\ v <> [] /\ forallb P v = true.
Proof.
  intros Hwf Hhas H. unfold match_at in H.
  destruct (exec r (MState prev rest [])) as [|st l] eqn:E; [discriminate|].
  injection H as <-. simpl.
  assert (Hin : In st (exec r (MState prev rest []))) by (rewrite E; now left).
  pose proof (exec_good P r Hwf _ _ Hin (Forall_nil _)) as Hg.
  pose proof (exec_groups_grow r _ _ Hin) as Hlen.
  rewrite Hhas in Hlen. simpl in Hlen.
  destruct (m_groups st) as [|[n v] gs]; [simpl in Hlen; lia|].
  inversion Hg as [|? ? (Hn & Hv & HP) _]; subst. simpl in *. subst.
  eauto.
Qed.
End ReFacts.

(* ===================================================================== *)
(** ** Facts about the invoice patterns and the two extractors *)
(* ===================================================================== *)

Module PatternFacts.

Import Chars Re ReFacts Patterns.

(** [weaker r r']: wherever [r] matches, [r'] matches with the same end
    position and the same groups. *)
Inductive weaker : regex -> regex -> Prop :=
| weaker_refl r : weaker r r
| weaker_rep cls cls' lo lo' hi hi' :
    (forall c, cls c = true -> cls' c = true) ->
    lo' <= lo ->
    (forall n, within hi n -> within hi' n) ->
    weaker (Rep cls lo hi) (Rep cls' lo' hi')
| weaker_seq a a' b b' :
    weaker a a' -> weaker b b' -> weaker (Seq a b) (Seq a' b')
| weaker_group n r r' :
    weaker r r' -> weaker (Group n r) (Group n r').

Lemma weaker_exec r r' :
  weaker r r' ->
  forall st st', In st' (exec r st) -> In st' (exec r' st).
Proof.
  induction 1 as [r|cls cls' lo lo' hi hi' Hcls Hlo Hhi
                  |a a' b b' _ IHa _ IHb|n r r' _ IH];
    intros st st' Hin; simpl in *.
  - assumption.
  - apply in_map_iff in Hin as ([p rest'] & <- & Hin).
    apply rep_greedy_sound in Hin as (w & E & Hw & Hl & Hh & ->).
    apply in_map_iff. exists (prev_after (m_prev st) w, rest').
    split; [reflexivity|]. rewrite E.
    apply rep_greedy_complete; eauto using forallb_impl. lia.
  - apply in_flat_map in Hin as (mid & H1 & H2).
    apply in_flat_map. eauto.
  - apply in_map_iff in Hin as (mid & <- & Hm).
    apply in_map_iff. eauto.
Qed.

Lemma weaker_match_at r r' prev rest :
  weaker r r' ->
  match_at r prev rest <> None -> match_at r' prev rest <> None.
Proof.
  intros Hw. unfold match_at.
  destruct (exec r (MState prev rest [])) as [|st l] eqn:E; [congruence|].
  intros _.
  assert (Hin : In st (exec r' (MState prev rest []))).
  { apply (weaker_exec _ _ Hw). rewrite E. now left. }
  destruct (exec r' (MState prev rest [])); [contradiction|discriminate].
Qed.

Lemma weaker_search r r' rest :
  weaker r r' ->
  forall prev, search_from r prev rest <> None ->
               search_from r' prev rest <> None.
Proof.
  intros Hw. induction rest as [|a rest IH]; intros prev; simpl.
  - pose proof (weaker_match_at r r' prev [] Hw) as Hm.
    destruct (match_at r prev []), (match_at r' prev []); try congruence.
    intros _. apply Hm. discriminate.
  - pose proof (weaker_match_at r r' prev (a :: rest) Hw) as Hm.
    destruct (match_at r prev (a :: rest)), (match_at r' prev (a :: rest));
      try congruence.
    + intros _. exfalso. apply Hm; congruence.
    + apply IH.
Qed.

(** Two letters and nine digits are in particular two to four letters and
    six or more digits. *)
Lemma two_nine_weaker :
  weaker pat_two_letters_nine_digits pat_letters_digits.
Proof.
  unfold pat_two_letters_nine_digits, pat_letters_digits.
  repeat (first [ apply weaker_seq | apply weaker_group ]);
    try apply weaker_refl;
    apply weaker_rep; auto; try lia; simpl; intros; lia.
Qed.

Lemma two_nine_never_first text :
  re_search pat_letters_digits (list_ascii_of_string text) = None ->
  re_search pat_two_letters_nine_digits (list_ascii_of_string text) = None.
Proof.
  intros H1. unfold re_search in *.
  pose proof (weaker_search _ _ (list_ascii_of_string text)
                            two_nine_weaker None) as Hs.
  destruct (search_from pat_two_letters_nine_digits None
                        (list_ascii_of_string text)); [|reflexivity].
  exfalso. apply Hs; congruence.
Qed.

(** *** The shape of an extracted identifier *)

Lemma AZ_in_token c : cls_AZ c = true -> cls_AZ09_hyphen c = true.
Proof. unfold cls_AZ09_hyphen, cls_AZ09. now intros ->. Qed.

Lemma digit_in_token c : cls_digit c = true -> cls_AZ09_hyphen c = true.
Proof.
  unfold cls_AZ09_hyphen, cls_AZ09. intros ->. now rewrite orb_true_r.
Qed.

Lemma AZ09_in_token c : cls_AZ09 c = true -> cls_AZ09_hyphen c = true.
Proof. unfold cls_AZ09_hyphen. now intros ->. Qed.

Lemma hyphen_in_token c : is_code 45 c = true -> cls_AZ09_hyphen c = true.
Proof. unfold cls_AZ09_hyphen. intros ->. now rewrite orb_true_r. Qed.

Create HintDb token.
#[local] Hint Resolve AZ_in_token digit_in_token AZ09_in_token
  hyphen_in_token : token.

(** A pattern whose group 1 delimits a non-empty token over
    [[A-Za-z0-9-]]. *)
Definition token_pattern (r : regex) : Prop :=
  wf_groups cls_AZ09_hyphen r /\ has_group r = true.

Ltac token_pattern_tac :=
  split; [simpl; repeat split; auto with token; lia | reflexivity].

Lemma token_letters_digits : token_pattern pat_letters_digits.
Proof. token_pattern_tac. Qed.

Lemma token_letters_hyphen_digits : token_pattern pat_letters_hyphen_digits.
Proof. token_pattern_tac. Qed.

Lemma token_factura : token_pattern pat_factura_token.
Proof. token_pattern_tac. Qed.

Lemma token_two_nine : token_pattern pat_two_letters_nine_digits.
Proof. token_pattern_tac. Qed.

Lemma token_cufe : token_pattern pat_cufe.
Proof. token_pattern_tac. Qed.

Definition is_token (id : string) : Prop :=
  id <> "" /\ forallb cls_AZ09_hyphen (list_ascii_of_string id) = true.

Lemma token_of_list v :
  v <> [] -> forallb cls_AZ09_hyphen v = true ->
  is_token (string_of_list_ascii v).
Proof.
  intros Hne Hv. split.
  - destruct v; [congruence|discriminate].
  - now rewrite list_ascii_of_string_of_list_ascii.
Qed.

Lemma search_token r text m :
  token_pattern r ->
  re_search r text = Some m ->
  exists v gs, groups m = (1, v) :: gs /\ v <> []
               /\ forallb cls_AZ09_hyphen v = true.
Proof.
  intros [Hwf Hhas] Hs. unfold re_search in Hs.
  apply search_from_match_at in Hs as (prev' & rest' & Hm).
  eapply match_at_group1; eauto.
Qed.

Lemma matched_identifier_token r text m :
  token_pattern r ->
  re_search r text = Some m ->
  exists id, matched_identifier m = Some id /\ is_token id.
Proof.
  intros Hr Hs. destruct (search_token _ _ _ Hr Hs) as (v & gs & E & Hne & Hv).
  exists (string_of_list_ascii v). split; [|now apply token_of_list].
  unfold matched_identifier, lastindex, group. rewrite E. reflexivity.
Qed.

Lemma first_pattern_match_token patterns text found :
  Forall token_pattern patterns ->
  first_pattern_match patterns text = Some found ->
  exists id, found = Some id /\ is_token id.
Proof.
  induction 1 as [|r rs Hr _ IH]; simpl; [discriminate|].
  destruct (re_search r (list_ascii_of_string text)) as [m|] eqn:E; [|exact IH].
  intros [= <-]. eapply matched_identifier_token; eauto.
Qed.

Lemma cufe_search_token text id :
  cufe_search text = Some id -> is_token id.
Proof.
  unfold cufe_search.
  destruct (re_search pat_cufe (list_ascii_of_string text)) as [m|] eqn:E;
    [|discriminate].
  destruct (search_token _ _ _ token_cufe E) as (v & gs & Eg & Hne & Hv).
  unfold group. rewrite Eg. simpl. intros [= <-]. now apply token_of_list.
Qed.

Lemma extract_with_token patterns text id :
  Forall token_pattern patterns ->
  extract_with patterns text = Some id -> is_token id.
Proof.
  intros Hp. unfold extract_with.
  destruct (first_pattern_match patterns text) as [found|] eqn:E.
  - destruct (first_pattern_match_token _ _ _ Hp E) as (id' & -> & Hid).
    now intros [= <-].
  - apply cufe_search_token.
Qed.

(** Every identifier either extractor returns is a non-empty text over
    [[A-Za-z0-9-]]. *)
Lemma identifier_chars_flow text id :
  Flow._extract_invoice_identifier_from_text text = Some id -> is_token id.
Proof.
  apply extract_with_token. unfold Flow.invoice_patterns.
  repeat first [ apply Forall_nil | apply Forall_cons ];
    auto using token_letters_digits, token_letters_hyphen_digits,
      token_factura.
Qed.

Lemma identifier_chars text id :
  Service._extract_invoice_identifier text = Some id -> is_token id.
Proof.
  apply extract_with_token. unfold Service.invoice_patterns.
  repeat first [ apply Forall_nil | apply Forall_cons ];
    auto using token_letters_digits, token_letters_hyphen_digits,
      token_factura, token_two_nine.
Qed.

End PatternFacts.

(* ===================================================================== *)
(** ** The extractors: priority, agreement, session keys *)
(* ===================================================================== *)

Module ExtractorSpec.

Import Chars Re ReFacts Patterns PatternFacts.
Import Flow Service.
Local Open Scope string_scope.

(** The order of section 4.2 of the specification, written as a cascade:
    pattern 1, else pattern 2, else pattern 3, and the CUFE pattern only
    when none of the three matched. *)
Definition spec_extract_identifier (text : string) : option string :=
  if matches pat_letters_digits text then found_by pat_letters_digits text
  else if matches pat_letters_hyphen_digits text
       then found_by pat_letters_hyphen_digits text
  else if matches pat_factura_token text then found_by pat_factura_token text
  else found_by pat_cufe text.

Lemma cufe_search_found_by text : cufe_search text = found_by pat_cufe text.
Proof.
  unfold cufe_search, found_by.
  destruct (re_search pat_cufe (list_ascii_of_string text)) as [m|] eqn:E;
    [|reflexivity].
  destruct (search_token _ _ _ token_cufe E) as (v & gs & Eg & _).
  unfold matched_identifier, lastindex, group. now rewrite Eg.
Qed.

Example priority_example :
  _extract_invoice_identifier_from_text
    "factura HBE122090 con CUFE ABCDEFGHIJKLMNOPQRSTUVWXYZ123456"
  = Some "HBE122090".
Proof. vm_compute. reflexivity. Qed.

(** C6.  For every text the flow extractor returns what the first matching
    pattern finds, the patterns being tried in the order letters+digits,
    letters-hyphen-digits, 'factura <token>', and the 32-character CUFE
    pattern only when none of the three matched; on
    "factura HBE122090 con CUFE ABCDEFGHIJKLMNOPQRSTUVWXYZ123456" it
    returns "HBE122090". *)
Theorem extraction_priority :
  (forall text,
      _extract_invoice_identifier_from_text text
      = spec_extract_identifier text)
  /\ _extract_invoice_identifier_from_text
       "factura HBE122090 con CUFE ABCDEFGHIJKLMNOPQRSTUVWXYZ123456"
     = Some "HBE122090".
Proof.
  split; [|exact priority_example].
  intros text.
  unfold _extract_invoice_identifier_from_text, extract_with,
    Flow.invoice_patterns, spec_extract_identifier, matches, found_by.
  simpl.
  destruct (re_search pat_letters_digits (list_ascii_of_string text));
    [reflexivity|].
  destruct (re_search pat_letters_hyphen_digits (list_ascii_of_string text));
    [reflexivity|].
  destruct (re_search pat_factura_token (list_ascii_of_string text));
    [reflexivity|].
  apply cufe_search_found_by.
Qed.

(** C10.  The extractor of the flow module and the extractor of the service
    module return the same optional identifier on every text: the extra
    pattern of the service (two letters, nine digits) is only reached when
    the first pattern found nothing, and then it finds nothing either. *)
Theorem extractors_agree :
  forall text,
    _extract_invoice_identifier_from_text text
    = _extract_invoice_identifier text.
Proof.
  intros text.
  unfold _extract_invoice_identifier_from_text, _extract_invoice_identifier,
    extract_with, Flow.invoice_patterns, Service.invoice_patterns.
  simpl.
  destruct (re_search pat_letters_digits (list_ascii_of_string text)) eqn:E1;
    [reflexivity|].
  destruct (re_search pat_letters_hyphen_digits (list_ascii_of_string text));
    [reflexivity|].
  destruct (re_search pat_factura_token (list_ascii_of_string text));
    [reflexivity|].
  now rewrite (two_nine_never_first text E1).
Qed.

(** *** Session keys *)

Lemma is_code_eq n c : is_code n c = true -> c = ascii_of_N n.
Proof.
  unfold is_code, code. intros H. apply N.eqb_eq in H.
  rewrite <- H. symmetry. apply ascii_N_embedding.
Qed.

Lemma token_lower_not_underscore c :
  cls_AZ09_hyphen c = true -> is_code 95 (lower_char c) = false.
Proof.
  destruct c as [[] [] [] [] [] [] [] []]; vm_compute; congruence.
Qed.

Lemma hyphen_to_underscore_inj x y :
  is_code 95 x = false -> is_code 95 y = false ->
  hyphen_to_underscore x = hyphen_to_underscore y -> x = y.
Proof.
  unfold hyphen_to_underscore. intros Hx Hy.
  destruct (is_code 45 x) eqn:Ex, (is_code 45 y) eqn:Ey; intros H.
  - apply is_code_eq in Ex, Ey. congruence.
  - subst y. discriminate.
  - subst x. discriminate.
  - assumption.
Qed.

Lemma replace_hyphens_lower_inj (u v : list ascii) :
  forallb cls_AZ09_hyphen u = true -> forallb cls_AZ09_hyphen v = true ->
  map hyphen_to_underscore (map lower_char u)
  = map hyphen_to_underscore (map lower_char v) ->
  map lower_char u = map lower_char v.
Proof.
  revert v. induction u as [|a u IH]; intros [|b v]; simpl;
    try discriminate; auto.
  intros Hu Hv [= Hab Huv].
  apply andb_true_iff in Hu as [Ha Hu]. apply andb_true_iff in Hv as [Hb Hv].
  f_equal; [|now apply IH].
  apply hyphen_to_underscore_inj; auto using token_lower_not_underscore.
Qed.

Lemma string_of_list_ascii_inj (u v : list ascii) :
  string_of_list_ascii u = string_of_list_ascii v -> u = v.
Proof.
  intros H. apply (f_equal list_ascii_of_string) in H.
  now rewrite !list_ascii_of_string_of_list_ascii in H.
Qed.

Lemma normalize_iff_lower a b :
  is_token a -> is_token b ->
  (normalize_identifier a = normalize_identifier b
   <-> str_lower a = str_lower b).
Proof.
  intros [_ Ha] [_ Hb]. split; [|unfold normalize_identifier; congruence].
  unfold normalize_identifier, replace_hyphens, str_lower.
  rewrite !list_ascii_of_string_of_list_ascii. intros H.
  apply string_of_list_ascii_inj in H.
  f_equal. now apply replace_hyphens_lower_inj.
Qed.

Lemma thread_id_of_identifier md5 q a :
  _extract_invoice_identifier q = Some a ->
  _generate_thread_id md5 q = "invoice_" ++ normalize_identifier a.
Proof.
  intros E. unfold _generate_thread_id. rewrite E.
  destruct (identifier_chars _ _ E) as [Hne _].
  destruct a; [congruence|reflexivity].
Qed.

(** C2.  The thread id is a function of the question text, keyed by the
    identifier the extractor detects in it (the first match in pattern
    order): when the extractor detects identifier [a] in one question and
    [b] in another, the key of the first is "invoice_" followed by the
    lower-cased, hyphen-to-underscore form of [a], and the two keys are
    equal exactly when the two normalized identifiers are equal, which
    for detected identifiers is exactly equality up to letter case. *)
Theorem session_key_stable_and_separating :
  forall (md5_hexdigest : string -> string) (q1 q2 a b : string),
    _extract_invoice_identifier q1 = Some a ->
    _extract_invoice_identifier q2 = Some b ->
    _generate_thread_id md5_hexdigest q1
    = "invoice_" ++ normalize_identifier a
    /\ (_generate_thread_id md5_hexdigest q1
        = _generate_thread_id md5_hexdigest q2
        <-> normalize_identifier a = normalize_identifier b)
    /\ (normalize_identifier a = normalize_identifier b
        <-> str_lower a = str_lower b).
Proof.
  intros md5 q1 q2 a b E1 E2.
  rewrite (thread_id_of_identifier md5 q1 a E1),
    (thread_id_of_identifier md5 q2 b E2).
  split; [reflexivity|]. split.
  - split; [|congruence]. simpl. congruence.
  - apply normalize_iff_lower; eauto using identifier_chars.
Qed.

(** The questions of the specification's example 5: the same invoice asked
    about in two ways (U+00BF and U+00E1 written by their codes), and a
    different invoice. *)
Definition q_dame : string := "dame la factura HBE122090".
Definition q_vence : string :=
  String (ascii_of_N 191) ("cu" ++ String (ascii_of_N 225)
                                          "ndo vence HBE122090?").
Definition q_otra : string := "dame la factura XYZ999999".

Lemma session_key_stable_and_separating_witness :
  _extract_invoice_identifier q_dame = Some "HBE122090"
  /\ _extract_invoice_identifier q_vence = Some "HBE122090"
  /\ _generate_thread_id (fun _ => "d41d8cd98f00b204e9800998ecf8427e") q_dame
     = "invoice_" ++ normalize_identifier "HBE122090"
  /\ (_generate_thread_id (fun _ => "d41d8cd98f00b204e9800998ecf8427e") q_dame
      = _generate_thread_id (fun _ => "d41d8cd98f00b204e9800998ecf8427e")
                            q_vence
      <-> normalize_identifier "HBE122090" = normalize_identifier "HBE122090")
  /\ (normalize_identifier "HBE122090" = normalize_identifier "HBE122090"
      <-> str_lower "HBE122090" = str_lower "HBE122090").
Proof.
  split; [vm_compute; reflexivity|].
  split; [vm_compute; reflexivity|].
  apply (session_key_stable_and_separating
           (fun _ => "d41d8cd98f00b204e9800998ecf8427e")
           q_dame q_vence "HBE122090" "HBE122090");
    vm_compute; reflexivity.
Defined.

Example session_keys_of_example_5 :
  forall md5,
    _generate_thread_id md5 q_dame = "invoice_hbe122090"
    /\ _generate_thread_id md5 q_vence = "invoice_hbe122090"
    /\ _generate_thread_id md5 q_otra = "invoice_xyz999999".
Proof. intros md5. repeat split; vm_compute; reflexivity. Qed.

(** A question may contain an identifier that is not the one detected in
    it.  The question of the priority example contains the CUFE and is
    keyed by the invoice number, which the first pattern finds; the
    CUFE asked about alone is keyed by the CUFE: two questions containing
    the same identifier, two keys. *)
Definition cufe_text : string := "ABCDEFGHIJKLMNOPQRSTUVWXYZ123456".
Definition q_numero_y_cufe : string :=
  "factura HBE122090 con CUFE " ++ cufe_text.
Definition q_cufe : string := "CUFE " ++ cufe_text.

Lemma same_identifier_two_keys :
  (exists before after, q_numero_y_cufe = before ++ cufe_text ++ after)
  /\ (exists before after, q_cufe = before ++ cufe_text ++ after)
  /\ _extract_invoice_identifier q_cufe = Some cufe_text
  /\ _generate_thread_id (fun _ => "d41d8cd98f00b204e9800998ecf8427e")
                         q_numero_y_cufe
     = "invoice_hbe122090"
  /\ _generate_thread_id (fun _ => "d41d8cd98f00b204e9800998ecf8427e")
                         q_cufe
     = "invoice_abcdefghijklmnopqrstuvwxyz123456"
  /\ _generate_thread_id (fun _ => "d41d8cd98f00b204e9800998ecf8427e")
                         q_numero_y_cufe
     <> _generate_thread_id (fun _ => "d41d8cd98f00b204e9800998ecf8427e")
                            q_cufe.
Proof.
  split; [exists "factura HBE122090 con CUFE ", ""; reflexivity|].
  split; [exists "CUFE ", ""; reflexivity|].
  split; [vm_compute; reflexivity|].
  split; [vm_compute; reflexivity|].
  split; [vm_compute; reflexivity|].
  vm_compute. discriminate.
Qed.

(** What the patterns detect decides the key.  E018-175709 is detected
    after the word factura and not elsewhere, so the second question gets
    a query key; after "factura de" the third pattern takes the word
    "de", for whatever invoice follows. *)
Example keys_of_undetected_identifiers :
  forall md5,
    _generate_thread_id md5 "factura E018-175709" = "invoice_e018_175709"
    /\ _generate_thread_id md5 "cuando vence E018-175709?"
       = "query_" ++ substring 0 8 (md5 "cuando vence E018-175709?")
    /\ _generate_thread_id md5 "dame la factura de E018-175709"
       = "invoice_de"
    /\ _generate_thread_id md5 "dame la factura de E019-222222"
       = "invoice_de".
Proof. intros md5. repeat split; vm_compute; reflexivity. Qed.


End ExtractorSpec.

(* ===================================================================== *)
(** ** [calcular_vencimiento]: formats, arithmetic, failures *)
(* ===================================================================== *)

Module DueDateSpec.

Import Chars Re Exc Dates Server.
Local Open Scope string_scope.
Local Open Scope Z_scope.

(** *** Calendar bounds *)

Lemma days_before_year_bounds y :
  1 <= y <= 9999 -> 0 <= days_before_year y <= 3651694.
Proof.
  intros Hy. unfold days_before_year.
  Z.to_euclidean_division_equations. lia.
Qed.

Lemma ymd2ord_range y m d :
  1 <= y <= 9999 -> 1 <= m <= 12 -> 1 <= d <= days_in_month y m ->
  1 <= ymd2ord y m d <= 3652059.
Proof.
  intros Hy Hm Hd.
  pose proof (days_before_year_bounds y Hy) as Hb.
  assert (Hleap : is_leap y = true -> days_before_year y <= 3650598).
  { unfold is_leap, days_before_year. intros H.
    apply andb_true_iff in H as [H4 _]. apply Z.eqb_eq in H4.
    Z.to_euclidean_division_equations. lia. }
  unfold ymd2ord.
  assert (Hcases : m = 1 \/ m = 2 \/ m = 3 \/ m = 4 \/ m = 5 \/ m = 6 \/
                   m = 7 \/ m = 8 \/ m = 9 \/ m = 10 \/ m = 11 \/ m = 12)
    by lia.
  unfold days_in_month, days_before_month in *.
  destruct (is_leap y) eqn:El;
    [specialize (Hleap eq_refl)|clear Hleap];
    repeat (destruct Hcases as [->|Hcases]); try subst m;
    match goal with
    | |- context [nth ?n ?l ?x] =>
        let v := eval vm_compute in (nth n l x) in
        change (nth n l x) with v
    end;
    cbn in Hd |- *; lia.
Qed.

Lemma make_date_range y m d dt :
  make_date y m d = Ok dt ->
  toordinal date_min <= toordinal dt <= toordinal date_max.
Proof.
  unfold make_date, MINYEAR, MAXYEAR.
  destruct (_ && _) eqn:Ey; simpl; [|discriminate].
  destruct ((1 <=? m) && _) eqn:Em; simpl; [|discriminate].
  destruct ((1 <=? d) && _) eqn:Ed; simpl; [|discriminate].
  intros [= <-]. simpl.
  apply andb_true_iff in Ey as [? ?], Em as [? ?], Ed as [? ?].
  change (ymd2ord 9999 12 31) with 3652059.
  apply ymd2ord_range; lia.
Qed.

Lemma make_date_raises y m d e :
  make_date y m d = Raise e -> exists msg, e = ValueError msg.
Proof.
  unfold make_date.
  repeat match goal with
         | |- context [if ?b then _ else _] => destruct b
         end; intros [= <-] || discriminate; eauto.
Qed.

(** [strptime] raises nothing but [ValueError]. *)
Lemma strptime_raises data format e :
  strptime data format = Raise e -> exists msg, e = ValueError msg.
Proof.
  unfold strptime.
  destruct (pattern _); [|intros [= <-]; eauto].
  destruct (re_match _ _); [|intros [= <-]; eauto].
  destruct (after_match _); [|intros [= <-]; eauto].
  apply make_date_raises.
Qed.

Lemma strptime_range data format dt :
  strptime data format = Ok dt ->
  toordinal date_min <= toordinal dt <= toordinal date_max.
Proof.
  unfold strptime.
  destruct (pattern _); [|discriminate].
  destruct (re_match _ _); [|discriminate].
  destruct (after_match _); [|discriminate].
  apply make_date_range.
Qed.

(** What one format yields on the (stripped) date text. *)
Definition try_format (formato fecha_emision : string) : option date :=
  match strptime (strip fecha_emision) formato with
  | Ok d => Some d
  | Raise _ => None
  end.

(** The precedence of section 4.1 of the specification, as a cascade. *)
Definition spec_parse_fecha (fecha_emision : string) : option date :=
  match try_format "%Y-%m-%d" fecha_emision with
  | Some d => Some d
  | None =>
      match try_format "%d-%m-%Y" fecha_emision with
      | Some d => Some d
      | None =>
          match try_format "%d/%m/%Y" fecha_emision with
          | Some d => Some d
          | None => try_format "%Y/%m/%d" fecha_emision
          end
      end
  end.

Lemma parse_fecha_cons formato formatos fecha_emision :
  parse_fecha (formato :: formatos) fecha_emision
  = match try_format formato fecha_emision with
    | Some d => Ok (Some d)
    | None => parse_fecha formatos fecha_emision
    end.
Proof.
  simpl. unfold try_format.
  destruct (strptime (strip fecha_emision) formato) as [d|e] eqn:E;
    [reflexivity|].
  destruct (strptime_raises _ _ _ E) as [msg ->]. reflexivity.
Qed.

Lemma parse_fecha_spec fecha_emision :
  parse_fecha formatos_fecha fecha_emision
  = Ok (spec_parse_fecha fecha_emision).
Proof.
  unfold formatos_fecha, spec_parse_fecha.
  rewrite !parse_fecha_cons. simpl.
  repeat match goal with
         | |- context [try_format ?f ?s] => destruct (try_format f s)
         end; reflexivity.
Qed.

Lemma parse_fecha_range formatos fecha_emision dt :
  parse_fecha formatos fecha_emision = Ok (Some dt) ->
  toordinal date_min <= toordinal dt <= toordinal date_max.
Proof.
  induction formatos as [|f fs IH]; simpl; [discriminate|].
  destruct (strptime (strip fecha_emision) f) as [d|e] eqn:E.
  - intros [= <-]. eapply strptime_range; eauto.
  - destruct e; auto; discriminate.
Qed.

Lemma calcular_vencimiento_total fecha_emision dias_credito hoy :
  exists r, calcular_vencimiento fecha_emision dias_credito hoy = Ok r.
Proof.
  unfold calcular_vencimiento, try_except.
  destruct (calcular_vencimiento_try fecha_emision dias_credito hoy); eauto.
Qed.

Lemma parsed_as fecha_emision dias_credito hoy d :
  parse_fecha formatos_fecha fecha_emision = Ok (Some d) ->
  calcular_vencimiento_try fecha_emision dias_credito hoy
  = bind (py_int dias_credito) (fun dias =>
    bind (timedelta_days dias) (fun delta =>
    bind (date_add d delta) (fun fecha_vencimiento =>
    let dias_restantes := date_diff_days fecha_vencimiento hoy in
    Ok {| fecha_emision := JDate d;
          fecha_vencimiento := JDate fecha_vencimiento;
          vencida := JBool (dias_restantes <? 0);
          dias_restantes := JInt dias_restantes;
          mensaje := JStr (if dias_restantes <? 0
                           then mensaje_vencida dias_restantes
                           else mensaje_faltan dias_restantes);
          error := JNull |}))).
Proof.
  intros H. unfold calcular_vencimiento_try. rewrite H. reflexivity.
Qed.

Definition day_2025_10_03 : date := Date (ymd2ord 2025 10 3).

Example parse_03_10_2025 :
  parse_fecha formatos_fecha "03-10-2025" = Ok (Some day_2025_10_03).
Proof. vm_compute. reflexivity. Qed.

(** C4.  For every issue-date text the four formats are tried in the order
    YYYY-MM-DD, DD-MM-YYYY, DD/MM/YYYY, YYYY/MM/DD and the first that
    parses gives the date; "03-10-2025" fails as YYYY-MM-DD, parses as
    DD-MM-YYYY, and is therefore 3 October 2025, the issue date
    [calcular_vencimiento] reports for it. *)
Theorem format_precedence :
  (forall fecha_emision,
      parse_fecha formatos_fecha fecha_emision
      = Ok (spec_parse_fecha fecha_emision))
  /\ try_format "%Y-%m-%d" "03-10-2025" = None
  /\ try_format "%d-%m-%Y" "03-10-2025" = Some day_2025_10_03
  /\ parse_fecha formatos_fecha "03-10-2025" = Ok (Some day_2025_10_03)
  /\ (forall hoy, exists r,
         calcular_vencimiento "03-10-2025" (PyInt 10) hoy = Ok r
         /\ fecha_emision r = JDate day_2025_10_03
         /\ fecha_vencimiento r = JDate (Date (ymd2ord 2025 10 13))).
Proof.
  split; [exact parse_fecha_spec|].
  split; [vm_compute; reflexivity|].
  split; [vm_compute; reflexivity|].
  split; [exact parse_03_10_2025|].
  intros hoy. unfold calcular_vencimiento.
  rewrite (parsed_as _ _ _ _ parse_03_10_2025).
  eexists. split; [reflexivity|]. split; reflexivity.
Qed.

(** *** Failures *)

Definition day_2025_02_01 : date := Date (ymd2ord 2025 2 1).

(** At "not-a-date" no format parses and the result is an error result
    whose issue-date field is not null: it holds the text received. *)
Lemma error_result_keeps_issue_text :
  parse_fecha formatos_fecha "not-a-date" = Ok None
  /\ ~ (exists r,
           calcular_vencimiento "not-a-date" (PyInt 5) day_2025_02_01 = Ok r
           /\ fecha_emision r = JNull
           /\ fecha_vencimiento r = JNull
           /\ vencida r = JNull
           /\ dias_restantes r = JNull
           /\ error r <> JNull).
Proof.
  split; [vm_compute; reflexivity|].
  intros (r & Hr & Hfe & _).
  vm_compute in Hr. injection Hr as <-. discriminate Hfe.
Qed.

(** C3, amended.  [calcular_vencimiento] always returns a result and never
    raises.  When no format parses the date text, when [int(dias_credito)]
    raises, and in general whenever the computation fails with an
    exception [e], the result has a null due date, a null overdue flag and
    a null number of days, its [error] field holds [str(e)], its [mensaje]
    embeds it, and its [fecha_emision] field is the text received. *)
Theorem failure_is_reported_in_result :
  forall (fecha : string) (dias_credito : py_object) (hoy : date),
    (exists r, calcular_vencimiento fecha dias_credito hoy = Ok r)
    /\ (parse_fecha formatos_fecha fecha = Ok None ->
        calcular_vencimiento fecha dias_credito hoy
        = Ok {| fecha_emision := JStr fecha;
                fecha_vencimiento := JNull;
                vencida := JNull;
                dias_restantes := JNull;
                mensaje :=
                  JStr ("Hubo un error al intentar calcular la fecha de vencimiento: "
                        ++ parse_error_message fecha);
                error := JStr (parse_error_message fecha) |})
    /\ (forall d e,
           parse_fecha formatos_fecha fecha = Ok (Some d) ->
           py_int dias_credito = Raise e ->
           calcular_vencimiento fecha dias_credito hoy
           = Ok (error_result fecha e))
    /\ (forall e,
           calcular_vencimiento_try fecha dias_credito hoy = Raise e ->
           calcular_vencimiento fecha dias_credito hoy
           = Ok {| fecha_emision := JStr fecha;
                   fecha_vencimiento := JNull;
                   vencida := JNull;
                   dias_restantes := JNull;
                   mensaje :=
                     JStr ("Hubo un error al intentar calcular la fecha de vencimiento: "
                           ++ str_exc e);
                   error := JStr (str_exc e) |}).
Proof.
  intros fe dc hoy.
  split; [apply calcular_vencimiento_total|].
  split; [|split].
  - intros H. unfold calcular_vencimiento, calcular_vencimiento_try.
    rewrite H. reflexivity.
  - intros d e Hp Hi. unfold calcular_vencimiento.
    rewrite (parsed_as _ _ _ _ Hp), Hi. reflexivity.
  - intros e H. unfold calcular_vencimiento. rewrite H. reflexivity.
Qed.

(** *** The due date *)

(** At "9999-12-31" with one day of credit the issue date parses, but the
    due date would fall after 9999-12-31: the addition overflows and the
    result carries no due date. *)
Lemma due_date_overflow :
  parse_fecha formatos_fecha "9999-12-31" = Ok (Some date_max)
  /\ ~ (exists r,
           calcular_vencimiento "9999-12-31" (PyInt 1) day_2025_02_01 = Ok r
           /\ fecha_vencimiento r = JDate (Date (toordinal date_max + 1))).
Proof.
  split; [vm_compute; reflexivity|].
  intros (r & Hr & Hfv).
  vm_compute in Hr. injection Hr as <-. discriminate Hfv.
Qed.

(** C5, amended.  For every issue date that parses and every integer
    [dias_credito] such that the issue date plus [dias_credito] days is a
    date between 0001-01-01 and 9999-12-31, the result has
    due date = issue date + [dias_credito] days, [dias_restantes] = due
    date - today in days, and [vencida] true exactly when [dias_restantes]
    is negative; so zero days remaining is not overdue. *)
Theorem due_date_arithmetic :
  forall (fecha : string) (dias_credito : Z) (hoy d : date),
    parse_fecha formatos_fecha fecha = Ok (Some d) ->
    toordinal date_min <= toordinal d + dias_credito <= toordinal date_max ->
    exists r overdue,
      calcular_vencimiento fecha (PyInt dias_credito) hoy = Ok r
      /\ fecha_emision r = JDate d
      /\ fecha_vencimiento r = JDate (Date (toordinal d + dias_credito))
      /\ dias_restantes r
         = JInt (toordinal d + dias_credito - toordinal hoy)
      /\ vencida r = JBool overdue
      /\ (overdue = true
          <-> toordinal d + dias_credito - toordinal hoy < 0)
      /\ (toordinal d + dias_credito - toordinal hoy = 0
          -> overdue = false)
      /\ error r = JNull.
Proof.
  intros fe dc hoy d Hp Hr.
  pose proof (parse_fecha_range _ _ _ Hp) as Hd.
  unfold calcular_vencimiento. rewrite (parsed_as _ _ _ _ Hp).
  change (toordinal date_min) with 1 in *.
  change (toordinal date_max) with 3652059 in *.
  simpl py_int. simpl bind at 1.
  unfold timedelta_days.
  destruct (Z.leb_spec (Z.abs dc) 999999999) as [_|Habs]; [|lia].
  simpl bind at 1. unfold date_add.
  change (toordinal date_min) with 1.
  change (toordinal date_max) with 3652059.
  destruct (Z.leb_spec 1 (toordinal d + dc)) as [_|]; [|lia].
  destruct (Z.leb_spec (toordinal d + dc) 3652059) as [_|]; [|lia].
  simpl. unfold date_diff_days. simpl.
  eexists. exists (toordinal d + dc - toordinal hoy <? 0).
  repeat split; try reflexivity.
  - apply Z.ltb_lt.
  - apply Z.ltb_lt.
  - intros ->. reflexivity.
Qed.

Definition day_2025_01_31 : date := Date (ymd2ord 2025 1 31).

Lemma due_date_arithmetic_witness :
  parse_fecha formatos_fecha "2025-01-01" = Ok (Some (Date (ymd2ord 2025 1 1)))
  /\ exists r overdue,
      calcular_vencimiento "2025-01-01" (PyInt 30) day_2025_01_31 = Ok r
      /\ fecha_emision r = JDate (Date (ymd2ord 2025 1 1))
      /\ fecha_vencimiento r
         = JDate (Date (toordinal (Date (ymd2ord 2025 1 1)) + 30))
      /\ dias_restantes r
         = JInt (toordinal (Date (ymd2ord 2025 1 1)) + 30
                 - toordinal day_2025_01_31)
      /\ vencida r = JBool overdue
      /\ (overdue = true
          <-> toordinal (Date (ymd2ord 2025 1 1)) + 30
              - toordinal day_2025_01_31 < 0)
      /\ (toordinal (Date (ymd2ord 2025 1 1)) + 30
          - toordinal day_2025_01_31 = 0
          -> overdue = false)
      /\ error r = JNull.
Proof.
  split; [vm_compute; reflexivity|].
  apply (due_date_arithmetic "2025-01-01" 30 day_2025_01_31
                             (Date (ymd2ord 2025 1 1))).
  - vm_compute. reflexivity.
  - vm_compute. split; discriminate.
Defined.

(** The boundary of the specification's example 1: issued 2025-01-01 with
    30 days, due 2025-01-31; on that day 0 days remain and the invoice is
    not overdue, one day later -1 day remains and it is. *)
Example due_today_not_overdue :
  exists m1 m2,
    calcular_vencimiento "2025-01-01" (PyInt 30) day_2025_01_31
    = Ok {| fecha_emision := JDate (Date (ymd2ord 2025 1 1));
            fecha_vencimiento := JDate day_2025_01_31;
            vencida := JBool false;
            dias_restantes := JInt 0;
            mensaje := JStr m1;
            error := JNull |}
    /\ calcular_vencimiento "2025-01-01" (PyInt 30) day_2025_02_01
       = Ok {| fecha_emision := JDate (Date (ymd2ord 2025 1 1));
               fecha_vencimiento := JDate day_2025_01_31;
               vencida := JBool true;
               dias_restantes := JInt (-1);
               mensaje := JStr m2;
               error := JNull |}.
Proof. do 2 eexists. split; vm_compute; reflexivity. Qed.

End DueDateSpec.

(* ===================================================================== *)
(** ** The ACT node: order, failures, cache *)
(* ===================================================================== *)

Module ActSpec.

Import Chars Exc Agent.

Section Act.

Context {World Args : Type}.
Variable tools_by_name : string -> option (Tool World Args).

(** What happened at one tool call of an ACT step: the call, the world it
    was issued in, its result and the cache entry it wrote. *)
Record call_outcome : Type := Outcome {
  o_call : ToolCall Args;
  o_before : World;
  o_result : tool_value;
  o_entry : option invoice_payload
}.

(** The calls of one ACT step, each run in the world the previous one
    left. *)
Fixpoint trace (calls : list (ToolCall Args)) (w : World)
  : list call_outcome * World :=
  match calls with
  | [] => ([], w)
  | call :: calls' =>
      let '((result, entry), w') := run_call tools_by_name call w in
      let '(os, w'') := trace calls' w' in
      (Outcome call w result entry :: os, w'')
  end.

Definition message_of (o : call_outcome) : Message Args :=
  ToolMessage (str_value (o_result o)) (tc_id (o_call o)).

Definition keep_last (acc : option invoice_payload) (o : call_outcome)
  : option invoice_payload :=
  match o_entry o with
  | Some payload => Some payload
  | None => acc
  end.

Lemma tools_loop_trace calls :
  forall new_messages updated_state w,
    tools_loop tools_by_name calls new_messages updated_state w
    = ((new_messages ++ map message_of (fst (trace calls w)),
        fold_left keep_last (fst (trace calls w)) updated_state),
       snd (trace calls w)).
Proof.
  induction calls as [|call calls IH]; intros msgs upd w; simpl.
  - now rewrite app_nil_r.
  - destruct (run_call tools_by_name call w) as [[result entry] w'].
    rewrite IH. destruct (trace calls w') as [os w'']. simpl.
    now rewrite <- app_assoc.
Qed.

Lemma trace_calls calls :
  forall w, map o_call (fst (trace calls w)) = calls.
Proof.
  induction calls as [|call calls IH]; intros w; simpl; [reflexivity|].
  destruct (run_call tools_by_name call w) as [[result entry] w'].
  specialize (IH w'). destruct (trace calls w') as [os w'']. simpl in *.
  now rewrite IH.
Qed.

(** Every recorded outcome is what [run_call] gave in the recorded world. *)
Lemma trace_run_call calls :
  forall w,
    Forall (fun o => fst (run_call tools_by_name (o_call o) (o_before o))
                     = (o_result o, o_entry o))
           (fst (trace calls w)).
Proof.
  induction calls as [|call calls IH]; intros w; simpl; [constructor|].
  destruct (run_call tools_by_name call w) as [[result entry] w'] eqn:E.
  specialize (IH w'). destruct (trace calls w') as [os w'']. simpl in *.
  constructor; [|exact IH]. simpl. now rewrite E.
Qed.

Lemma tools_node_trace pre last rag w :
  tools_node tools_by_name (MkState (pre ++ [last]) rag) w
  = (Ok (MkUpdate (map message_of (fst (trace (tool_calls_of last) w)))
                  (fold_left keep_last (fst (trace (tool_calls_of last) w))
                             None)),
     snd (trace (tool_calls_of last) w)).
Proof.
  unfold tools_node. simpl messages. rewrite rev_app_distr. simpl.
  now rewrite tools_loop_trace.
Qed.

Lemma nth_error_message_of os i o :
  nth_error os i = Some o ->
  nth_error (map message_of os) i = Some (message_of o).
Proof. intros H. now rewrite nth_error_map, H. Qed.

(** C7.  When the last message is an assistant message requesting the
    calls [c1 .. cn], the ACT node returns exactly [n] new messages, all
    of them tool results; the [i]-th is the result of the [i]-th call, in
    the order of the request, and carries the id of that call. *)
Theorem tool_results_follow_calls :
  forall (pre : list (Message Args)) (content : string)
         (calls : list (ToolCall Args)) (rag : option invoice_payload)
         (w : World),
  exists upd w',
    tools_node tools_by_name
               (MkState (pre ++ [AIMessage content calls]) rag) w
    = (Ok upd, w')
    /\ length (u_messages upd) = length calls
    /\ u_messages upd = map message_of (fst (trace calls w))
    /\ map o_call (fst (trace calls w)) = calls
    /\ (forall i call,
           nth_error calls i = Some call ->
           exists text,
             nth_error (u_messages upd) i
             = Some (ToolMessage text (tc_id call))).
Proof.
  intros pre content calls rag w.
  rewrite tools_node_trace. simpl tool_calls_of.
  do 2 eexists. split; [reflexivity|]. simpl.
  pose proof (trace_calls calls w) as Hc.
  split; [|split; [reflexivity|split; [exact Hc|]]].
  - rewrite length_map. rewrite <- Hc at 2. now rewrite length_map.
  - intros i call Hi. rewrite <- Hc in Hi.
    rewrite nth_error_map in Hi.
    destruct (nth_error (fst (trace calls w)) i) as [o|] eqn:Eo;
      [|discriminate].
    simpl in Hi. injection Hi as <-.
    exists (str_value (o_result o)).
    now rewrite (nth_error_message_of _ _ _ Eo).
Qed.


(** *** The cache *)

Lemma cache_entry_Some tool_name result p :
  cache_entry tool_name result = Some p
  <-> tool_name = "rag_get_invoice_data"
      /\ exists s, result = VStr s /\ starts_with_Error s = false
                   /\ p = Payload s false.
Proof.
  unfold cache_entry. split.
  - destruct (String.eqb_spec tool_name "rag_get_invoice_data") as [->|];
      [|discriminate].
    destruct result as [s|s]; [|discriminate].
    destruct (starts_with_Error s) eqn:E; [discriminate|].
    intros [= <-]. eauto.
  - intros (-> & s & -> & E & ->). now rewrite E.
Qed.

Lemma run_call_entry call w p :
  snd (fst (run_call tools_by_name call w)) = Some p
  <-> tc_name call = "rag_get_invoice_data"
      /\ exists tool s w',
          tools_by_name (tc_name call) = Some tool
          /\ tool (tc_args call) w = (Ok (VStr s), w')
          /\ starts_with_Error s = false
          /\ p = Payload s false.
Proof.
  unfold run_call. split.
  - destruct (tools_by_name (tc_name call)) as [tool|]; [|discriminate].
    destruct (tool (tc_args call) w) as [[result|e] w'] eqn:E;
      [|discriminate].
    simpl. intros H. apply cache_entry_Some in H as (Hn & s & -> & Hs & ->).
    split; [assumption|]. exists tool, s, w'. auto.
  - intros (Hn & tool & s & w' & -> & -> & Hs & ->). simpl.
    apply cache_entry_Some. eauto.
Qed.

Lemma keep_last_None os :
  fold_left keep_last os None = None
  <-> Forall (fun o => o_entry o = None) os.
Proof.
  assert (Hsome : forall os p, fold_left keep_last os (Some p) <> None).
  { clear. induction os as [|o os IH]; intros p; simpl; [discriminate|].
    unfold keep_last at 2. destruct (o_entry o); apply IH. }
  induction os as [|o os IH]; simpl.
  - split; auto.
  - unfold keep_last at 2. destruct (o_entry o) as [p|] eqn:E.
    + split; [intros H; now apply Hsome in H|].
      intros H. inversion H; congruence.
    + rewrite IH. split; [now constructor|]. intros H. now inversion H.
Qed.

Lemma keep_last_Some os :
  forall init p,
    fold_left keep_last os init = Some p ->
    init = Some p \/ exists o, In o os /\ o_entry o = Some p.
Proof.
  induction os as [|o os IH]; intros init p; simpl; [auto|].
  intros H. apply IH in H as [H|(o' & Hin & Ho)]; [|eauto].
  unfold keep_last in H. destruct (o_entry o) as [q|] eqn:E; [|auto].
  right. exists o. split; [now left|congruence].
Qed.

(** C9.  One call writes a cache entry exactly when its tool is named
    rag_get_invoice_data, is in the registry, and returns a string that
    does not start with "Error" (the entry then holds that string).  Over
    one ACT step the update carries a [rag_invoice] exactly when some call
    of the step wrote one; otherwise [rag_invoice] is what it was. *)
Theorem cache_written_only_by_rag :
  (forall (call : ToolCall Args) (w : World) p,
      snd (fst (run_call tools_by_name call w)) = Some p
      <-> tc_name call = "rag_get_invoice_data"
          /\ exists tool s w',
              tools_by_name (tc_name call) = Some tool
              /\ tool (tc_args call) w = (Ok (VStr s), w')
              /\ prefix "Error" s = false
              /\ p = Payload s false)
  /\ (forall (pre : list (Message Args)) (last : Message Args)
             (rag : option invoice_payload) (w : World),
         exists upd w',
           tools_node tools_by_name (MkState (pre ++ [last]) rag) w
           = (Ok upd, w')
           /\ (u_rag_invoice upd <> None
               <-> exists o, In o (fst (trace (tool_calls_of last) w))
                             /\ o_entry o <> None)
           /\ (u_rag_invoice upd = None ->
               rag_invoice_after (MkState (pre ++ [last]) rag) upd = rag)
           /\ (forall p, u_rag_invoice upd = Some p ->
                         rag_invoice_after (MkState (pre ++ [last]) rag) upd
                         = Some p
                         /\ exists o,
                             In o (fst (trace (tool_calls_of last) w))
                             /\ o_entry o = Some p)).
Proof.
  split; [exact run_call_entry|].
  intros pre last rag w. rewrite tools_node_trace.
  do 2 eexists. split; [reflexivity|]. simpl u_rag_invoice.
  set (os := fst (trace (tool_calls_of last) w)).
  split; [|split].
  - split.
    + intros H. destruct (Exists_dec (fun o => o_entry o <> None) os) as [E|N].
      * intros o. destruct (o_entry o); [left; discriminate|right; congruence].
      * apply Exists_exists in E. exact E.
      * exfalso. apply H. apply keep_last_None.
        apply Forall_forall. intros o Ho.
        destruct (o_entry o) eqn:Eo; [|reflexivity].
        exfalso. apply N. apply Exists_exists. exists o. split; congruence.
    + intros (o & Hin & Ho) H. apply keep_last_None in H.
      rewrite Forall_forall in H. now apply Ho, H.
  - intros H. unfold rag_invoice_after. simpl. now rewrite H.
  - intros p H. split.
    + unfold rag_invoice_after. simpl. now rewrite H.
    + apply keep_last_Some in H as [H|H]; [discriminate|exact H].
Qed.

End Act.

End ActSpec.

(* ===================================================================== *)
(** ** The DECIDE node within one question: context isolation *)
(* ===================================================================== *)

Module DecideSpec.

Import Chars Exc Flow Service Agent PatternFacts ExtractorSpec ActSpec.





Section Decide.

Context {World Args : Type}.
Variable system_prompt : string.
Variable model : Model World Args.
Variable tools_by_name : string -> option (Tool World Args).

(** The configurations one call of [ask_custom] goes through: the node
    about to run, the state of the graph, and the world. *)
Inductive reachable (question : string)
  : node -> AgentState Args -> World -> Prop :=
| reach_init w : reachable question node_decide (initial_state question) w
| reach_step n st w n' st' w' :
    reachable question n st w ->
    graph_step system_prompt model tools_by_name n st w = (Ok (n', st'), w') ->
    reachable question n' st' w'.

Definition user_contents (msgs : list (Message Args)) : list string :=
  flat_map (fun msg => match msg with
                       | HumanMessage content => [content]
                       | _ => []
                       end) msgs.

Lemma user_contents_app (l1 l2 : list (Message Args)) :
  user_contents (l1 ++ l2) = user_contents l1 ++ user_contents l2.
Proof. apply flat_map_app. Qed.


Lemma user_contents_tool_messages (os : list (@call_outcome World Args)) :
  user_contents (map message_of os) = [].
Proof. induction os as [|o os IH]; simpl; auto. Qed.

(** The invariant of one question: its text is the only user message, and
    a cached invoice text is the content of a tool result of this same
    conversation. *)
Definition isolated (question : string) (st : AgentState Args) : Prop :=
  user_contents (messages st) = [question]
  /\ forall p, rag_invoice st = Some p ->
               exists id, In (ToolMessage (raw_text p) id) (messages st).

Lemma isolated_init question : isolated question (initial_state question).
Proof. split; [reflexivity|discriminate]. Qed.

Lemma decide_node_update st w upd w' :
  decide_node system_prompt model st w = (Ok upd, w') ->
  exists content calls,
    upd = MkUpdate (messages st ++ [AIMessage content calls]) None.
Proof.
  unfold decide_node.
  destruct (model (decide_prompt system_prompt st) w) as [[msg|e] w1];
    [|discriminate].
  destruct msg; try discriminate. intros [= <- _]. eauto.
Qed.

Lemma tools_node_update st w upd w' :
  tools_node tools_by_name st w = (Ok upd, w') ->
  exists last,
    upd = MkUpdate
            (map message_of
                 (fst (trace tools_by_name (tool_calls_of last) w)))
            (fold_left keep_last
                       (fst (trace tools_by_name (tool_calls_of last) w))
                       None).
Proof.
  unfold tools_node.
  destruct (rev (messages st)) as [|last older]; [discriminate|].
  rewrite tools_loop_trace. intros [= <- _]. eauto.
Qed.

Lemma entry_text_in_messages calls w o p :
  In o (fst (trace tools_by_name calls w)) ->
  o_entry o = Some p ->
  In (ToolMessage (raw_text p) (tc_id (o_call o)))
     (map message_of (fst (trace tools_by_name calls w))).
Proof.
  intros Hin Hp.
  pose proof (trace_run_call tools_by_name calls w) as Hall.
  rewrite Forall_forall in Hall. specialize (Hall o Hin).
  assert (Hs : snd (fst (run_call tools_by_name (o_call o)
                                  (o_before o))) = Some p)
    by (now rewrite Hall).
  apply run_call_entry in Hs as (_ & tool & s & w1 & Ht & Hr & _ & ->).
  unfold run_call in Hall. rewrite Ht, Hr in Hall. simpl in Hall.
  injection Hall as Hres _.
  apply in_map_iff. exists o. split; [|assumption].
  unfold message_of. now rewrite <- Hres.
Qed.

Lemma isolated_step question n st w n' st' w' :
  isolated question st ->
  graph_step system_prompt model tools_by_name n st w = (Ok (n', st'), w') ->
  isolated question st'.
Proof.
  intros [Hu Hc]. unfold graph_step. destruct n.
  - destruct (decide_node system_prompt model st w) as [[upd|e] w1] eqn:H;
      [|discriminate].
    destruct (should_continue (after_decide st upd)); [|discriminate].
    intros [= _ <- _].
    apply decide_node_update in H as (content & calls & ->).
    unfold isolated, after_decide, rag_invoice_after. simpl. split.
    + rewrite user_contents_app, Hu. reflexivity.
    + intros p Hp. destruct (Hc p Hp) as [id Hin]. exists id.
      apply in_or_app. now left.
  - destruct (tools_node tools_by_name st w) as [[upd|e] w1] eqn:H;
      [|discriminate].
    intros [= _ <- _].
    apply tools_node_update in H as (last & ->).
    unfold isolated, after_tools, rag_invoice_after. simpl. split.
    + now rewrite user_contents_app, user_contents_tool_messages, Hu.
    + intros p Hp.
      destruct (fold_left _ _ None) as [q|] eqn:Ef.
      * injection Hp as ->.
        apply keep_last_Some in Ef as [Ef|(o & Hin & Ho)]; [discriminate|].
        eexists. apply in_or_app. right.
        eapply entry_text_in_messages; eauto.
      * destruct (Hc p Hp) as [id Hin]. exists id.
        apply in_or_app. now left.
  - intros [= _ <- _]. now split.
Qed.

Lemma reachable_isolated question n st w :
  reachable question n st w -> isolated question st.
Proof.
  induction 1; eauto using isolated_init, isolated_step.
Qed.

(** The state [agent.ainvoke] returns is one of these configurations. *)
Lemma run_graph_reachable question fuel :
  forall n st w result w',
    reachable question n st w ->
    run_graph system_prompt fuel model tools_by_name n st w
    = Some (Ok result, w') ->
    reachable question node_END result w'.
Proof.
  induction fuel as [|fuel IH]; intros n st w result w' Hr;
    destruct n; cbn [run_graph]; try discriminate;
    try (intros [= <- <-]; exact Hr).
  - destruct (graph_step system_prompt model tools_by_name node_decide st w)
      as [[[next st1]|e] w1] eqn:E; [|discriminate].
    apply IH. eapply reach_step; eauto.
  - destruct (graph_step system_prompt model tools_by_name node_tools st w)
      as [[[next st1]|e] w1] eqn:E; [|discriminate].
    apply IH. eapply reach_step; eauto.
Qed.





Lemma clear_if_different_cases (st : AgentState Args) :
  clear_if_different st = st
  \/ (clear_if_different st = MkState (messages st) None
      /\ exists p prev current,
          rag_invoice st = Some p
          /\ _extract_invoice_identifier_from_text (raw_text p) = Some prev
          /\ current_invoice_id_of st = Some current
          /\ str_upper prev <> str_upper current).
Proof.
  unfold clear_if_different.
  destruct (rag_invoice st) as [p|] eqn:Ep; [|now left].
  destruct (truthy (current_invoice_id_of st)) eqn:Tc; [|now left].
  destruct (truthy (_extract_invoice_identifier_from_text (raw_text p)))
    eqn:Tp; [|now left].
  simpl.
  destruct (String.eqb_spec
              (str_upper (text_of (_extract_invoice_identifier_from_text
                                     (raw_text p))))
              (str_upper (text_of (current_invoice_id_of st))))
    as [E|N]; [now left|].
  right. split; [reflexivity|].
  destruct (_extract_invoice_identifier_from_text (raw_text p))
    as [prev|] eqn:Eprev; [|discriminate].
  destruct (current_invoice_id_of st) as [current|] eqn:Ecur; [|discriminate].
  exists p, prev, current. auto.
Qed.



End Decide.

End DecideSpec.

(* ===================================================================== *)
(** ** A concrete conversation *)
(* ===================================================================== *)

Module Demo.

Import Exc Flow Agent ActSpec DecideSpec.

(** A registry with the invoice tool, which answers with the text of
    invoice XYZ999999, and a tool that raises; a model that asks for the
    invoice tool, an unknown tool and the raising tool, in that order. *)
Definition invoice_text : string := "Factura XYZ999999 emitida el 2025-01-01".

Definition registry (tool_name : string) : option (Tool unit unit) :=
  if String.eqb tool_name "rag_get_invoice_data"
  then Some (fun _ w => (Ok (VStr invoice_text), w))
  else if String.eqb tool_name "calcular_vencimiento"
  then Some (fun _ w => (Raise (OtherException "sin conexion"), w))
  else None.

Definition calls : list (ToolCall unit) :=
  [ MkToolCall "rag_get_invoice_data" tt "call_1";
    MkToolCall "list_facturas" tt "call_2";
    MkToolCall "calcular_vencimiento" tt "call_3" ].

Definition reply : string := "No tengo datos de la factura HBE122090.".

Definition model : Model unit unit :=
  fun prompt w =>
    match rev prompt with
    | HumanMessage _ :: _ => (Ok (AIMessage "" calls), w)
    | _ => (Ok (AIMessage reply []), w)
    end.

Definition question : string := "dame la factura HBE122090".

Definition asked : AgentState unit :=
  MkState [HumanMessage question; AIMessage "" calls] None.

Definition answered : AgentState unit :=
  MkState
    [ HumanMessage question;
      AIMessage "" calls;
      ToolMessage invoice_text "call_1";
      ToolMessage "Error: herramienta 'list_facturas' no existe." "call_2";
      ToolMessage
        "Error ejecutando herramienta calcular_vencimiento: sin conexion"
        "call_3" ]
    (Some (Payload invoice_text false)).

Example act_on_asked :
  tools_node registry asked tt
  = (Ok (MkUpdate
           [ ToolMessage invoice_text "call_1";
             ToolMessage "Error: herramienta 'list_facturas' no existe."
                         "call_2";
             ToolMessage
               "Error ejecutando herramienta calcular_vencimiento: sin conexion"
               "call_3" ]
           (Some (Payload invoice_text false))),
     tt).
Proof. vm_compute. reflexivity. Qed.

Lemma answered_reachable :
  reachable "SYSTEM" model registry question node_decide answered tt.
Proof.
  apply (reach_step "SYSTEM" model registry question node_tools asked tt).
  - apply (reach_step "SYSTEM" model registry question
                      node_decide (initial_state question) tt).
    + apply reach_init.
    + vm_compute. reflexivity.
  - vm_compute. reflexivity.
Qed.



(** The whole question: DECIDE, ACT, DECIDE, and the answer is the content
    of the last message. *)
Example ask_custom_answers :
  ask_custom "SYSTEM" 3 model registry question tt = Some (Ok reply, tt).
Proof. vm_compute. reflexivity. Qed.

Example ask_custom_needs_three_nodes :
  ask_custom "SYSTEM" 2 model registry question tt = None.
Proof. vm_compute. reflexivity. Qed.

End Demo.

(* ===================================================================== *)
(** ** More on the extractors and the thread id *)
(* ===================================================================== *)

Module ExtractorMore.

Import Chars Re ReFacts Patterns PatternFacts ExtractorSpec.
Import Flow Service.

(** *** Where a match lies in the text *)

Definition occurs_in (v text : list ascii) : Prop :=
  exists before after, text = before ++ v ++ after.

Definition is_suffix (rest text : list ascii) : Prop :=
  exists before, text = before ++ rest.

Lemma exec_groups_occur text r :
  forall st st',
    In st' (exec r st) ->
    is_suffix (m_rest st) text ->
    Forall (fun g => occurs_in (snd g) text) (m_groups st) ->
    Forall (fun g => occurs_in (snd g) text) (m_groups st').
Proof.
  induction r; intros st st' Hin Hsuf Hg; simpl in Hin.
  - destruct Hin as [<-|[]]. assumption.
  - destruct (m_rest st) as [|a rest]; [contradiction|].
    destruct (cls a); [|contradiction]. destruct Hin as [<-|[]]. assumption.
  - apply in_map_iff in Hin as (pr & <- & _). assumption.
  - destruct (at_boundary st); [|contradiction].
    destruct Hin as [<-|[]]. assumption.
  - apply in_flat_map in Hin as (mid & H1 & H2).
    apply (IHr2 mid st' H2); [|eauto].
    destruct Hsuf as [before E]. destruct (exec_suffix _ _ _ H1) as [w Ew].
    exists (before ++ w). now rewrite E, Ew, app_assoc.
  - apply in_app_or in Hin as [H|H]; eauto.
  - apply in_map_iff in Hin as (mid & <- & H). simpl.
    constructor; [|eauto]. simpl.
    destruct Hsuf as [before E]. destruct (exec_suffix _ _ _ H) as [w Ew].
    rewrite Ew, consumed_between_app. exists before, (m_rest mid).
    now rewrite E, Ew.
Qed.

Lemma match_at_groups_occur text r prev rest m :
  is_suffix rest text ->
  match_at r prev rest = Some m ->
  Forall (fun g => occurs_in (snd g) text) (groups m).
Proof.
  intros Hsuf H. unfold match_at in H.
  destruct (exec r (MState prev rest [])) as [|st l] eqn:E; [discriminate|].
  injection H as <-. simpl.
  apply (exec_groups_occur text r (MState prev rest []) st); auto.
  rewrite E. now left.
Qed.

Lemma search_from_suffix r rest :
  forall prev m,
    search_from r prev rest = Some m ->
    exists prev' rest',
      is_suffix rest' rest /\ match_at r prev' rest' = Some m.
Proof.
  induction rest as [|a rest IH]; intros prev m H; simpl in H.
  - destruct (match_at r prev []) eqn:E; [|discriminate].
    injection H as <-. exists prev, []. split; [now exists []|assumption].
  - destruct (match_at r prev (a :: rest)) eqn:E.
    + injection H as <-. exists prev, (a :: rest).
      split; [now exists []|assumption].
    + apply IH in H as (prev' & rest' & [before Eb] & Hm).
      exists prev', rest'. split; [|assumption].
      exists (a :: before). now rewrite Eb.
Qed.

Lemma string_of_list_ascii_app (u v : list ascii) :
  string_of_list_ascii (u ++ v)
  = (string_of_list_ascii u ++ string_of_list_ascii v)%string.
Proof. induction u as [|a u IH]; simpl; [reflexivity|now rewrite IH]. Qed.

Definition occurs_in_text (id text : string) : Prop :=
  exists before after : string, text = (before ++ id ++ after)%string.

Lemma occurs_in_strings v text :
  occurs_in v (list_ascii_of_string text) ->
  occurs_in_text (string_of_list_ascii v) text.
Proof.
  intros (before & after & E).
  exists (string_of_list_ascii before), (string_of_list_ascii after).
  rewrite <- !string_of_list_ascii_app, <- E.
  now rewrite string_of_list_ascii_of_string.
Qed.

Lemma search_group1_occurs r text m :
  token_pattern r ->
  re_search r (list_ascii_of_string text) = Some m ->
  exists v gs, groups m = (1, v) :: gs
               /\ occurs_in v (list_ascii_of_string text).
Proof.
  intros Hr Hs.
  destruct (search_token _ _ _ Hr Hs) as (v & gs & Eg & _).
  exists v, gs. split; [assumption|].
  unfold re_search in Hs.
  apply search_from_suffix in Hs as (prev' & rest' & Hsuf & Hm).
  pose proof (match_at_groups_occur _ _ _ _ _ Hsuf Hm) as Hall.
  rewrite Eg in Hall. now inversion Hall.
Qed.

Lemma extract_with_occurs patterns text id :
  Forall token_pattern patterns ->
  extract_with patterns text = Some id ->
  occurs_in_text id text.
Proof.
  intros Hp. unfold extract_with.
  destruct (first_pattern_match patterns text) as [found|] eqn:E.
  - intros ->. revert E. induction Hp as [|r rs Hr _ IH]; simpl;
      [discriminate|].
    destruct (re_search r (list_ascii_of_string text)) as [m|] eqn:Es;
      [|exact IH].
    destruct (search_group1_occurs _ _ _ Hr Es) as (v & gs & Eg & Ho).
    unfold matched_identifier, lastindex, group. rewrite Eg. simpl.
    intros [= <-]. now apply occurs_in_strings.
  - unfold cufe_search.
    destruct (re_search pat_cufe (list_ascii_of_string text)) as [m|] eqn:Es;
      [|discriminate].
    destruct (search_group1_occurs _ _ _ token_cufe Es) as (v & gs & Eg & Ho).
    unfold group. rewrite Eg. simpl.
    intros [= <-]. now apply occurs_in_strings.
Qed.

Lemma flow_patterns_token : Forall token_pattern Flow.invoice_patterns.
Proof.
  unfold Flow.invoice_patterns.
  repeat first [ apply Forall_nil | apply Forall_cons ];
    auto using token_letters_digits, token_letters_hyphen_digits,
      token_factura.
Qed.

Lemma service_patterns_token : Forall token_pattern Service.invoice_patterns.
Proof.
  unfold Service.invoice_patterns.
  repeat first [ apply Forall_nil | apply Forall_cons ];
    auto using token_letters_digits, token_letters_hyphen_digits,
      token_factura, token_two_nine.
Qed.

(** X1.  For a text whose code points are all below U+0100: an identifier
    returned by either extractor is a non-empty text made of ASCII
    letters, digits and hyphens, and it occurs in the text as it is, with
    its original letter case. *)
Theorem identifier_occurs_verbatim :
  forall text id : string,
    _extract_invoice_identifier_from_text text = Some id
    \/ _extract_invoice_identifier text = Some id ->
    id <> ""%string
    /\ forallb cls_AZ09_hyphen (list_ascii_of_string id) = true
    /\ exists before after : string,
        text = (before ++ id ++ after)%string.
Proof.
  intros text id [H|H].
  - destruct (identifier_chars_flow _ _ H) as [Hne Hc].
    repeat split; auto.
    exact (extract_with_occurs _ _ _ flow_patterns_token H).
  - destruct (identifier_chars _ _ H) as [Hne Hc].
    repeat split; auto.
    exact (extract_with_occurs _ _ _ service_patterns_token H).
Qed.

Lemma identifier_occurs_verbatim_witness :
  _extract_invoice_identifier_from_text "vence la Factura fact-77 hoy"
  = Some "fact-77"%string
  /\ exists before after : string,
      "vence la Factura fact-77 hoy"%string
      = (before ++ "fact-77" ++ after)%string.
Proof.
  assert (H : _extract_invoice_identifier_from_text
                "vence la Factura fact-77 hoy" = Some "fact-77"%string)
    by (vm_compute; reflexivity).
  split; [exact H|].
  apply (identifier_occurs_verbatim "vence la Factura fact-77 hoy" "fact-77").
  left. exact H.
Defined.

(** *** Short texts *)

Lemma only_any r : only (fun _ => true) r.
Proof. induction r; simpl; auto. Qed.

Lemma match_at_min_len r prev rest m :
  match_at r prev rest = Some m -> min_len r <= length rest.
Proof.
  unfold match_at.
  destruct (exec r (MState prev rest [])) as [|st l] eqn:E; [discriminate|].
  intros _.
  assert (Hin : In st (exec r (MState prev rest []))) by (rewrite E; now left).
  destruct (exec_consumes _ r (only_any r) _ _ Hin) as (w & Ew & _ & L).
  simpl in Ew. rewrite Ew, length_app. lia.
Qed.

Lemma search_min_len r text m :
  re_search r text = Some m -> min_len r <= length text.
Proof.
  unfold re_search. intros H.
  apply search_from_suffix in H as (prev' & rest' & [before E] & Hm).
  apply match_at_min_len in Hm. rewrite E, length_app. lia.
Qed.

Lemma first_pattern_match_min_len n patterns text found :
  Forall (fun r => n <= min_len r) patterns ->
  first_pattern_match patterns text = Some found ->
  n <= length (list_ascii_of_string text).
Proof.
  induction 1 as [|r rs Hr _ IH]; simpl; [discriminate|].
  destruct (re_search r (list_ascii_of_string text)) as [m|] eqn:E;
    [|exact IH].
  intros _. apply search_min_len in E. lia.
Qed.

Lemma length_list_ascii_of_string s :
  length (list_ascii_of_string s) = String.length s.
Proof. induction s as [|a s IH]; simpl; [reflexivity|now rewrite IH]. Qed.

(** X2.  A text of fewer than three characters, in particular the empty
    text, yields no identifier: the shortest text any pattern accepts is
    a letter, a hyphen and a digit. *)
Theorem short_text_has_no_identifier :
  forall text : string,
    String.length text < 3 ->
    _extract_invoice_identifier_from_text text = None
    /\ _extract_invoice_identifier text = None.
Proof.
  intros text Hlen.
  assert (Hgen : forall patterns,
             Forall (fun r => 3 <= min_len r) patterns ->
             extract_with patterns text = None).
  { intros patterns Hp. unfold extract_with.
    destruct (first_pattern_match patterns text) as [found|] eqn:E.
    - apply (first_pattern_match_min_len 3 _ _ _ Hp) in E.
      rewrite length_list_ascii_of_string in E. lia.
    - unfold cufe_search.
      destruct (re_search pat_cufe (list_ascii_of_string text)) as [m|] eqn:Es;
        [|reflexivity].
      apply search_min_len in Es. simpl in Es.
      rewrite length_list_ascii_of_string in Es. lia. }
  split; apply Hgen;
    repeat first [ apply Forall_nil | apply Forall_cons ]; simpl; lia.
Qed.

Lemma short_text_has_no_identifier_witness :
  _extract_invoice_identifier_from_text "A1" = None
  /\ _extract_invoice_identifier "A1" = None.
Proof.
  apply (short_text_has_no_identifier "A1"). simpl. lia.
Defined.

(** *** Letter case *)

Definition map_groups (f : ascii -> ascii) (gs : list (nat * list ascii))
  : list (nat * list ascii) :=
  map (fun g => (fst g, map f (snd g))) gs.

Definition map_state (f : ascii -> ascii) (st : mstate) : mstate :=
  MState (option_map f (m_prev st)) (map f (m_rest st))
         (map_groups f (m_groups st)).

Definition map_match (f : ascii -> ascii) (m : Match) : Match :=
  MkMatch (map f (group0 m)) (map_groups f (groups m))
          (map f (after_match m)).

(** [respects f r]: no class of [r] tells [c] from [f c]. *)
Fixpoint respects (f : ascii -> ascii) (r : regex) : Prop :=
  match r with
  | Chr cls | Rep cls _ _ => forall c, cls (f c) = cls c
  | Seq a b | Alt a b => respects f a /\ respects f b
  | Group _ b => respects f b
  | Eps | WordB => True
  end.

Lemma rep_greedy_map f cls rest :
  (forall c, cls (f c) = cls c) ->
  forall lo hi prev,
    rep_greedy cls lo hi (option_map f prev) (map f rest)
    = map (fun pr => (option_map f (fst pr), map f (snd pr)))
          (rep_greedy cls lo hi prev rest).
Proof.
  intros Hcls. induction rest as [|a rest IH]; intros lo hi prev; simpl.
  - destruct (Nat.eqb lo 0); reflexivity.
  - rewrite Hcls. destruct (cls a && hi_open hi).
    + rewrite map_app. rewrite <- IH. simpl.
      destruct (Nat.eqb lo 0); reflexivity.
    + destruct (Nat.eqb lo 0); reflexivity.
Qed.

Lemma consumed_between_map f (u v : list ascii) :
  consumed_between (map f u) (map f v) = map f (consumed_between u v).
Proof.
  unfold consumed_between. now rewrite !length_map, firstn_map.
Qed.

Lemma at_boundary_map f st :
  (forall c, cls_word (f c) = cls_word c) ->
  at_boundary (map_state f st) = at_boundary st.
Proof.
  intros Hw. unfold at_boundary, map_state. simpl.
  destruct (m_prev st) as [p|], (m_rest st) as [|a rest]; simpl;
    now rewrite ?Hw.
Qed.

Lemma flat_map_map {A B C : Type} (g : B -> list C) (h : A -> B) l :
  flat_map g (map h l) = flat_map (fun x => g (h x)) l.
Proof. induction l as [|x l IH]; simpl; [reflexivity|now rewrite IH]. Qed.

Lemma map_flat_map {A B C : Type} (h : B -> C) (g : A -> list B) l :
  map h (flat_map g l) = flat_map (fun x => map h (g x)) l.
Proof.
  induction l as [|x l IH]; simpl; [reflexivity|].
  now rewrite map_app, IH.
Qed.

Lemma exec_map f r :
  (forall c, cls_word (f c) = cls_word c) ->
  respects f r ->
  forall st, exec r (map_state f st) = map (map_state f) (exec r st).
Proof.
  intros Hw. induction r; intros Hr st; simpl in Hr; simpl exec.
  - reflexivity.
  - unfold map_state at 1. simpl. destruct (m_rest st) as [|a rest]; simpl;
      [reflexivity|].
    rewrite Hr. destruct (cls a); reflexivity.
  - cbn [map_state m_prev m_rest m_groups].
    rewrite (rep_greedy_map f cls _ Hr), !map_map. reflexivity.
  - rewrite (at_boundary_map f st Hw).
    destruct (at_boundary st); reflexivity.
  - destruct Hr as [H1 H2].
    rewrite (IHr1 H1), flat_map_map, map_flat_map.
    apply flat_map_ext. intros mid. now apply IHr2.
  - destruct Hr as [H1 H2]. now rewrite map_app, IHr1, IHr2.
  - rewrite (IHr Hr), !map_map. apply map_ext. intros st'.
    unfold map_state. simpl. now rewrite consumed_between_map.
Qed.

Lemma match_at_map f r prev rest :
  (forall c, cls_word (f c) = cls_word c) ->
  respects f r ->
  match_at r (option_map f prev) (map f rest)
  = option_map (map_match f) (match_at r prev rest).
Proof.
  intros Hw Hr. unfold match_at.
  change (MState (option_map f prev) (map f rest) [])
    with (map_state f (MState prev rest [])).
  rewrite (exec_map f r Hw Hr).
  destruct (exec r (MState prev rest [])) as [|st l]; simpl; [reflexivity|].
  unfold map_match. simpl. now rewrite consumed_between_map.
Qed.

Lemma search_from_map f r rest :
  (forall c, cls_word (f c) = cls_word c) ->
  respects f r ->
  forall prev,
    search_from r (option_map f prev) (map f rest)
    = option_map (map_match f) (search_from r prev rest).
Proof.
  intros Hw Hr. induction rest as [|a rest IH]; intros prev; simpl.
  - pose proof (match_at_map f r prev [] Hw Hr) as E. simpl in E.
    rewrite E. destruct (match_at r prev []); reflexivity.
  - pose proof (match_at_map f r prev (a :: rest) Hw Hr) as E. simpl in E.
    rewrite E.
    destruct (match_at r prev (a :: rest)); simpl; [reflexivity|].
    apply (IH (Some a)).
Qed.

Definition str_map (f : ascii -> ascii) (s : string) : string :=
  string_of_list_ascii (map f (list_ascii_of_string s)).

Lemma str_map_of_list f v :
  string_of_list_ascii (map f v) = str_map f (string_of_list_ascii v).
Proof. unfold str_map. now rewrite list_ascii_of_string_of_list_ascii. Qed.

Lemma assoc_group_map f n gs :
  assoc_group n (map_groups f gs) = option_map (map f) (assoc_group n gs).
Proof.
  induction gs as [|[k v] gs IH]; simpl; [reflexivity|].
  destruct (Nat.eqb k n); [reflexivity|exact IH].
Qed.

Lemma group_text_map f n gs :
  option_map string_of_list_ascii (assoc_group n (map_groups f gs))
  = option_map (str_map f)
               (option_map string_of_list_ascii (assoc_group n gs)).
Proof.
  rewrite assoc_group_map.
  destruct (assoc_group n gs); simpl; [|reflexivity].
  f_equal. apply str_map_of_list.
Qed.

Lemma matched_identifier_map f m :
  matched_identifier (map_match f m)
  = option_map (str_map f) (matched_identifier m).
Proof.
  unfold matched_identifier, lastindex, group.
  cbn [map_match groups group0].
  destruct (groups m) as [|[k v] gs] eqn:Eg.
  - simpl. f_equal. apply str_map_of_list.
  - cbn [map_groups map fst snd]. destruct k as [|k].
    + simpl. f_equal. apply str_map_of_list.
    + change ((S k, map f v) :: map (fun g => (fst g, map f (snd g))) gs)
        with (map_groups f ((S k, v) :: gs)).
      apply group_text_map.
Qed.

Lemma list_of_str_map f s :
  list_ascii_of_string (str_map f s) = map f (list_ascii_of_string s).
Proof. unfold str_map. apply list_ascii_of_string_of_list_ascii. Qed.

Lemma extract_with_map f patterns text :
  (forall c, cls_word (f c) = cls_word c) ->
  Forall (respects f) patterns -> respects f pat_cufe ->
  extract_with patterns (str_map f text)
  = option_map (str_map f) (extract_with patterns text).
Proof.
  intros Hw Hp Hc. unfold extract_with.
  assert (Hs : forall r, respects f r ->
             re_search r (list_ascii_of_string (str_map f text))
             = option_map (map_match f)
                          (re_search r (list_ascii_of_string text))).
  { intros r Hr. rewrite list_of_str_map. unfold re_search.
    exact (search_from_map f r _ Hw Hr None). }
  assert (Hf : first_pattern_match patterns (str_map f text)
               = option_map (option_map (str_map f))
                            (first_pattern_match patterns text)).
  { induction Hp as [|r rs Hr _ IH]; simpl; [reflexivity|].
    rewrite (Hs r Hr).
    destruct (re_search r (list_ascii_of_string text)) as [m|]; simpl;
      [now rewrite matched_identifier_map|exact IH]. }
  rewrite Hf.
  destruct (first_pattern_match patterns text) as [found|]; simpl;
    [reflexivity|].
  unfold cufe_search. rewrite (Hs _ Hc).
  destruct (re_search pat_cufe (list_ascii_of_string text)) as [m|]; simpl;
    [|reflexivity].
  unfold group. cbn [map_match groups]. apply group_text_map.
Qed.

(** The classes of the patterns do not tell a letter from its lower
    case. *)
Lemma lower_word c : cls_word (lower_char c) = cls_word c.
Proof. destruct c as [[] [] [] [] [] [] [] []]; vm_compute; reflexivity. Qed.

Lemma lower_AZ c : cls_AZ (lower_char c) = cls_AZ c.
Proof. destruct c as [[] [] [] [] [] [] [] []]; vm_compute; reflexivity. Qed.

Lemma lower_digit c : cls_digit (lower_char c) = cls_digit c.
Proof. destruct c as [[] [] [] [] [] [] [] []]; vm_compute; reflexivity. Qed.

Lemma lower_hyphen c : is_code 45 (lower_char c) = is_code 45 c.
Proof. destruct c as [[] [] [] [] [] [] [] []]; vm_compute; reflexivity. Qed.

Lemma lower_space c : cls_space (lower_char c) = cls_space c.
Proof. destruct c as [[] [] [] [] [] [] [] []]; vm_compute; reflexivity. Qed.

Lemma lower_AZ09 c : cls_AZ09 (lower_char c) = cls_AZ09 c.
Proof. unfold cls_AZ09. now rewrite lower_AZ, lower_digit. Qed.

Lemma lower_token c : cls_AZ09_hyphen (lower_char c) = cls_AZ09_hyphen c.
Proof. unfold cls_AZ09_hyphen. now rewrite lower_AZ09, lower_hyphen. Qed.

Lemma lower_lower c : lower_char (lower_char c) = lower_char c.
Proof. destruct c as [[] [] [] [] [] [] [] []]; vm_compute; reflexivity. Qed.

Lemma lower_char_ic lit c : is_char_ic lit (lower_char c) = is_char_ic lit c.
Proof. unfold is_char_ic. now rewrite lower_lower. Qed.

Create HintDb lowercase.
#[local] Hint Resolve lower_AZ lower_digit lower_hyphen lower_space
  lower_AZ09 lower_token lower_char_ic : lowercase.

Ltac respects_lower := simpl; repeat split; auto with lowercase.

Lemma flow_patterns_lower : Forall (respects lower_char) Flow.invoice_patterns.
Proof.
  unfold Flow.invoice_patterns.
  repeat first [ apply Forall_nil | apply Forall_cons ]; respects_lower.
Qed.

Lemma service_patterns_lower :
  Forall (respects lower_char) Service.invoice_patterns.
Proof.
  unfold Service.invoice_patterns.
  repeat first [ apply Forall_nil | apply Forall_cons ]; respects_lower.
Qed.

Lemma cufe_lower : respects lower_char pat_cufe.
Proof. respects_lower. Qed.

Lemma str_lower_is_str_map s : str_lower s = str_map lower_char s.
Proof. reflexivity. Qed.

(** X3.  Extraction does not depend on letter case: lower-casing a text
    lower-cases the identifier found in it, and a text without identifier
    stays without one. *)
Theorem extraction_commutes_with_lower :
  forall text : string,
    _extract_invoice_identifier_from_text (str_lower text)
    = option_map str_lower (_extract_invoice_identifier_from_text text)
    /\ _extract_invoice_identifier (str_lower text)
       = option_map str_lower (_extract_invoice_identifier text).
Proof.
  intros text. split.
  - exact (extract_with_map lower_char _ text lower_word
                            flow_patterns_lower cufe_lower).
  - exact (extract_with_map lower_char _ text lower_word
                            service_patterns_lower cufe_lower).
Qed.

Lemma str_lower_idempotent s : str_lower (str_lower s) = str_lower s.
Proof.
  unfold str_lower. rewrite list_ascii_of_string_of_list_ascii, map_map.
  f_equal. apply map_ext. exact lower_lower.
Qed.

(** X4.  For a question whose code points are all below U+0100 and in
    which an identifier is found, the thread id of the lower-cased
    question is the thread id of the question. *)
Theorem thread_id_ignores_case :
  forall (md5_hexdigest : string -> string) (question id : string),
    _extract_invoice_identifier question = Some id ->
    _generate_thread_id md5_hexdigest (str_lower question)
    = _generate_thread_id md5_hexdigest question.
Proof.
  intros md5 q a E.
  assert (El : _extract_invoice_identifier (str_lower q)
               = Some (str_lower a)).
  { unfold _extract_invoice_identifier.
    rewrite str_lower_is_str_map.
    rewrite (extract_with_map lower_char _ q lower_word
                              service_patterns_lower cufe_lower).
    unfold _extract_invoice_identifier in E. now rewrite E. }
  rewrite (thread_id_of_identifier md5 _ _ El),
    (thread_id_of_identifier md5 _ _ E).
  unfold normalize_identifier. now rewrite str_lower_idempotent.
Qed.

Lemma thread_id_ignores_case_witness :
  _extract_invoice_identifier "Dame la Factura HBE122090" = Some "HBE122090"%string
  /\ _generate_thread_id (fun q => q) (str_lower "Dame la Factura HBE122090")
     = _generate_thread_id (fun q => q) "Dame la Factura HBE122090".
Proof.
  assert (H : _extract_invoice_identifier "Dame la Factura HBE122090"
              = Some "HBE122090"%string) by (vm_compute; reflexivity).
  split; [exact H|].
  exact (thread_id_ignores_case (fun q => q) _ _ H).
Defined.

(** *** The two kinds of thread id *)

(** The characters of an invoice key: a..z, 0..9 and the underscore. *)
Definition cls_key (c : ascii) : bool :=
  is_ascii_lower c || cls_digit c || is_code 95 c.

Lemma normalized_char_is_key c :
  cls_AZ09_hyphen c = true ->
  cls_key (hyphen_to_underscore (lower_char c)) = true.
Proof.
  destruct c as [[] [] [] [] [] [] [] []]; vm_compute; congruence.
Qed.

Lemma normalize_identifier_list id :
  list_ascii_of_string (normalize_identifier id)
  = map hyphen_to_underscore (map lower_char (list_ascii_of_string id)).
Proof.
  unfold normalize_identifier, replace_hyphens, str_lower.
  now rewrite !list_ascii_of_string_of_list_ascii.
Qed.

Lemma forallb_normalized u :
  forallb cls_AZ09_hyphen u = true ->
  forallb cls_key (map hyphen_to_underscore (map lower_char u)) = true.
Proof.
  induction u as [|a u IH]; simpl; [reflexivity|].
  intros H. apply andb_true_iff in H as [Ha Hu].
  now rewrite normalized_char_is_key, IH.
Qed.

(** X5.  For a question whose code points are all below U+0100: when an
    identifier is found the thread id is "invoice_" followed by a
    non-empty key of the same length as the identifier, made only of the
    characters a..z, 0..9 and underscore: no capital letter and no hyphen
    is left. *)
Theorem invoice_thread_id_shape :
  forall (md5_hexdigest : string -> string) (question id : string),
    _extract_invoice_identifier question = Some id ->
    exists key : string,
      _generate_thread_id md5_hexdigest question
      = ("invoice_" ++ key)%string
      /\ String.length key = String.length id
      /\ key <> ""%string
      /\ forallb cls_key (list_ascii_of_string key) = true.
Proof.
  intros md5 q a E. destruct (identifier_chars _ _ E) as [Hne Hc].
  exists (normalize_identifier a).
  split; [exact (thread_id_of_identifier md5 q a E)|].
  assert (Hlen : String.length (normalize_identifier a) = String.length a).
  { rewrite <- !length_list_ascii_of_string, normalize_identifier_list.
    now rewrite !length_map. }
  split; [exact Hlen|]. split.
  - intros H0. rewrite H0 in Hlen. destruct a; [congruence|discriminate].
  - rewrite normalize_identifier_list. now apply forallb_normalized.
Qed.

Lemma invoice_thread_id_shape_witness :
  _extract_invoice_identifier "factura E018-175709" = Some "E018-175709"%string
  /\ exists key : string,
      _generate_thread_id (fun q => q) "factura E018-175709"
      = ("invoice_" ++ key)%string
      /\ String.length key = String.length "E018-175709"
      /\ key <> ""%string
      /\ forallb cls_key (list_ascii_of_string key) = true.
Proof.
  assert (H : _extract_invoice_identifier "factura E018-175709"
              = Some "E018-175709"%string) by (vm_compute; reflexivity).
  split; [exact H|].
  exact (invoice_thread_id_shape (fun q => q) _ _ H).
Defined.

Lemma length_substring_le n : forall m s, String.length (substring n m s) <= m.
Proof.
  induction n as [|n IHn]; intros m s.
  - revert s. induction m as [|m IHm]; intros [|a s]; simpl; try lia.
    specialize (IHm s). lia.
  - destruct s as [|a s]; simpl.
    + destruct m; simpl; lia.
    + apply IHn.
Qed.

Lemma length_append (u v : string) :
  String.length (u ++ v)%string = String.length u + String.length v.
Proof. induction u as [|a u IH]; simpl; [reflexivity|now rewrite IH]. Qed.

(** X6.  When no identifier is found the thread id is "query_" followed by
    the first eight characters of the hash of the question, at most 14
    characters in all; it never coincides with the thread id of a
    question in which an identifier is found. *)
Theorem query_thread_id_is_separate :
  forall (md5_hexdigest : string -> string) (question : string),
    _extract_invoice_identifier question = None ->
    _generate_thread_id md5_hexdigest question
    = ("query_" ++ substring 0 8 (md5_hexdigest question))%string
    /\ String.length (_generate_thread_id md5_hexdigest question) <= 14
    /\ forall other id : string,
        _extract_invoice_identifier other = Some id ->
        _generate_thread_id md5_hexdigest other
        <> _generate_thread_id md5_hexdigest question.
Proof.
  intros md5 q E.
  assert (Hq : _generate_thread_id md5 q
               = ("query_" ++ substring 0 8 (md5 q))%string).
  { unfold _generate_thread_id. now rewrite E. }
  split; [exact Hq|]. split.
  - rewrite Hq, length_append.
    pose proof (length_substring_le 0 8 (md5 q)). simpl. lia.
  - intros other id Eo. rewrite Hq, (thread_id_of_identifier md5 _ _ Eo).
    discriminate.
Qed.

Lemma query_thread_id_is_separate_witness :
  _extract_invoice_identifier "que puedes hacer" = None
  /\ _generate_thread_id (fun _ => "0cc175b9c0f1b6a831c399e269772661")
                         "que puedes hacer"
     = "query_0cc175b9"%string.
Proof.
  assert (H : _extract_invoice_identifier "que puedes hacer" = None)
    by (vm_compute; reflexivity).
  split; [exact H|].
  destruct (query_thread_id_is_separate
              (fun _ => "0cc175b9c0f1b6a831c399e269772661"%string) _ H)
    as (Hq & _).
  exact Hq.
Defined.

End ExtractorMore.

(* ===================================================================== *)
(** ** More on [calcular_vencimiento] *)
(* ===================================================================== *)

Module DueDateMore.

Import Chars Re ReFacts Exc Dates Server DueDateSpec.
Local Open Scope Z_scope.

(** *** The error field *)

Lemma try_success_shape fecha dias_credito hoy r :
  calcular_vencimiento_try fecha dias_credito hoy = Ok r ->
  exists d1 d2 m,
    r = {| fecha_emision := JDate d1;
           fecha_vencimiento := JDate d2;
           vencida := JBool (date_diff_days d2 hoy <? 0);
           dias_restantes := JInt (date_diff_days d2 hoy);
           mensaje := JStr m;
           error := JNull |}.
Proof.
  unfold calcular_vencimiento_try.
  destruct (parse_fecha formatos_fecha fecha) as [[d|]|e]; simpl;
    try discriminate.
  destruct (py_int dias_credito) as [n|e]; simpl; [|discriminate].
  destruct (timedelta_days n) as [delta|e]; simpl; [|discriminate].
  destruct (date_add d delta) as [d2|e]; simpl; [|discriminate].
  intros [= <-]. eauto.
Qed.

(** X7.  Whatever the arguments, the result tells success from failure by
    its [error] field alone: either [error] is null and the issue date,
    the due date, the overdue flag and the day count are all present, or
    [error] is a text and the due date, the flag and the count are all
    null; [mensaje] is a text in both cases. *)
Theorem error_field_tells_outcome :
  forall (fecha : string) (dias_credito : py_object) (hoy : date),
  exists r m,
    calcular_vencimiento fecha dias_credito hoy = Ok r
    /\ mensaje r = JStr m
    /\ ((error r = JNull
         /\ exists d1 d2,
             fecha_emision r = JDate d1
             /\ fecha_vencimiento r = JDate d2
             /\ dias_restantes r = JInt (toordinal d2 - toordinal hoy)
             /\ vencida r = JBool (toordinal d2 - toordinal hoy <? 0))
        \/ (exists msg, error r = JStr msg
            /\ fecha_emision r = JStr fecha
            /\ fecha_vencimiento r = JNull
            /\ dias_restantes r = JNull
            /\ vencida r = JNull)).
Proof.
  intros fecha dc hoy. unfold calcular_vencimiento.
  destruct (calcular_vencimiento_try fecha dc hoy) as [r|e] eqn:E; simpl.
  - destruct (try_success_shape _ _ _ _ E) as (d1 & d2 & m & ->).
    do 2 eexists. split; [reflexivity|]. split; [reflexivity|].
    left. split; [reflexivity|]. exists d1, d2. auto.
  - do 2 eexists. split; [reflexivity|]. split; [reflexivity|].
    right. eexists. repeat split; reflexivity.
Qed.

(** *** What a format accepts *)

(** The texts a regex can read, leaving aside where they stand. *)
Fixpoint accepts (r : regex) (w : list ascii) : Prop :=
  match r with
  | Eps | WordB => w = []
  | Chr cls => exists a, w = [a] /\ cls a = true
  | Rep cls lo hi =>
      forallb cls w = true /\ (lo <= length w)%nat
      /\ within hi (length w)
  | Seq a b => exists w1 w2, w = (w1 ++ w2)%list
                             /\ accepts a w1 /\ accepts b w2
  | Alt a b => accepts a w \/ accepts b w
  | Group _ b => accepts b w
  end.

Lemma exec_accepts r :
  forall st st', In st' (exec r st) ->
    exists w, m_rest st = (w ++ m_rest st')%list /\ accepts r w.
Proof.
  induction r; intros st st' Hin; simpl in Hin.
  - destruct Hin as [<-|[]]. now exists [].
  - destruct (m_rest st) as [|a rest] eqn:E; [contradiction|].
    destruct (cls a) eqn:Ha; [|contradiction].
    destruct Hin as [<-|[]]. exists [a]. simpl. eauto.
  - apply in_map_iff in Hin as ([p r'] & <- & Hin).
    apply rep_greedy_sound in Hin as (w & E & Hw & Hlo & Hhi & _).
    exists w. simpl. auto.
  - destruct (at_boundary st); [|contradiction].
    destruct Hin as [<-|[]]. now exists [].
  - apply in_flat_map in Hin as (mid & H1 & H2).
    apply IHr1 in H1 as (w1 & E1 & A1). apply IHr2 in H2 as (w2 & E2 & A2).
    exists (w1 ++ w2)%list. split.
    + now rewrite <- app_assoc, <- E2.
    + simpl. eauto.
  - apply in_app_or in Hin as [H|H].
    + apply IHr1 in H as (w & E & A). exists w. simpl. auto.
    + apply IHr2 in H as (w & E & A). exists w. simpl. auto.
  - apply in_map_iff in Hin as (mid & <- & H). simpl.
    apply IHr in H as (w & E & A). eauto.
Qed.

Lemma strptime_accepts data format d format_regex :
  pattern (list_ascii_of_string format) = Some format_regex ->
  strptime data format = Ok d ->
  accepts format_regex (list_ascii_of_string data).
Proof.
  intros Hp. unfold strptime. rewrite Hp. unfold re_match, match_at.
  destruct (exec format_regex (MState None (list_ascii_of_string data) []))
    as [|st l] eqn:E; [discriminate|].
  simpl. destruct (m_rest st) eqn:Er; [|discriminate]. intros _.
  assert (Hin : In st (exec format_regex
                            (MState None (list_ascii_of_string data) [])))
    by (rewrite E; now left).
  apply exec_accepts in Hin as (w & Ew & A). simpl in Ew.
  rewrite Er, app_nil_r in Ew. now rewrite Ew.
Qed.

(** A text that starts with four digits and the separator, and a text
    whose separator comes after one character or after two, the second
    being a digit. *)
Definition year_first (sep : ascii) (l : list ascii) : Prop :=
  exists y1 y2 y3 y4 rest,
    l = y1 :: y2 :: y3 :: y4 :: sep :: rest
    /\ cls_digit y2 = true /\ cls_digit y3 = true.

Definition day_first (sep : ascii) (l : list ascii) : Prop :=
  (exists a rest, l = a :: sep :: rest)
  \/ (exists a b rest, l = a :: b :: sep :: rest /\ cls_digit b = true).

Definition hyphen : ascii := ascii_of_N 45.
Definition slash : ascii := ascii_of_N 47.

Lemma is_char_ic_hyphen a : is_char_ic "-" a = true -> a = hyphen.
Proof. destruct a as [[] [] [] [] [] [] [] []]; vm_compute; congruence. Qed.

Lemma is_char_ic_slash a : is_char_ic "/" a = true -> a = slash.
Proof. destruct a as [[] [] [] [] [] [] [] []]; vm_compute; congruence. Qed.

Lemma range_48_49_digit a : in_range 48 49 a = true -> cls_digit a = true.
Proof. destruct a as [[] [] [] [] [] [] [] []]; vm_compute; congruence. Qed.

Lemma range_48_50_digit a : in_range 48 50 a = true -> cls_digit a = true.
Proof. destruct a as [[] [] [] [] [] [] [] []]; vm_compute; congruence. Qed.

Lemma range_49_57_digit a : in_range 49 57 a = true -> cls_digit a = true.
Proof. destruct a as [[] [] [] [] [] [] [] []]; vm_compute; congruence. Qed.

Ltac split_accepts H :=
  simpl in H; decompose [ex and or] H; clear H; subst; simpl in *;
  repeat match goal with
         | H : is_char_ic "-" _ = true |- _ =>
             apply is_char_ic_hyphen in H; subst
         | H : is_char_ic "/" _ = true |- _ =>
             apply is_char_ic_slash in H; subst
         end;
  match goal with
  | E : list_ascii_of_string _ = _ |- _ => rewrite E
  end.

Lemma shape_Ymd data d :
  strptime data "%Y-%m-%d" = Ok d ->
  year_first hyphen (list_ascii_of_string data)
  /\ (8 <= length (list_ascii_of_string data) <= 10)%nat.
Proof.
  intros H. eapply strptime_accepts in H; [|simpl; reflexivity].
  split_accepts H; (split; [|simpl; lia]);
    do 5 eexists; (split; [reflexivity|]); auto.
Qed.

Lemma shape_Ymd_slash data d :
  strptime data "%Y/%m/%d" = Ok d ->
  year_first slash (list_ascii_of_string data)
  /\ (8 <= length (list_ascii_of_string data) <= 10)%nat.
Proof.
  intros H. eapply strptime_accepts in H; [|simpl; reflexivity].
  split_accepts H; (split; [|simpl; lia]);
    do 5 eexists; (split; [reflexivity|]); auto.
Qed.

Ltac day_first_tac :=
  first [ left; do 2 eexists; reflexivity
        | right; do 3 eexists; split; [reflexivity|];
          auto using range_48_49_digit, range_49_57_digit ].

Lemma shape_dmY data d :
  strptime data "%d-%m-%Y" = Ok d ->
  day_first hyphen (list_ascii_of_string data)
  /\ (8 <= length (list_ascii_of_string data) <= 10)%nat.
Proof.
  intros H. eapply strptime_accepts in H; [|simpl; reflexivity].
  split_accepts H; (split; [|simpl; lia]); day_first_tac.
Qed.

Lemma shape_dmY_slash data d :
  strptime data "%d/%m/%Y" = Ok d ->
  day_first slash (list_ascii_of_string data)
  /\ (8 <= length (list_ascii_of_string data) <= 10)%nat.
Proof.
  intros H. eapply strptime_accepts in H; [|simpl; reflexivity].
  split_accepts H; (split; [|simpl; lia]); day_first_tac.
Qed.

Lemma hyphen_not_digit : cls_digit hyphen = false.
Proof. reflexivity. Qed.

Lemma slash_not_digit : cls_digit slash = false.
Proof. reflexivity. Qed.

Lemma year_year s1 s2 l : year_first s1 l -> year_first s2 l -> s1 = s2.
Proof.
  intros (y1 & y2 & y3 & y4 & rest & -> & _)
         (z1 & z2 & z3 & z4 & rest' & E & _).
  now injection E.
Qed.

Lemma year_day s1 s2 l :
  cls_digit s2 = false -> year_first s1 l -> day_first s2 l -> False.
Proof.
  intros Hs (y1 & y2 & y3 & y4 & rest & -> & D2 & D3)
         [(a & rest' & E)|(a & b & rest' & E & _)];
    injection E as; subst; congruence.
Qed.

Lemma day_day s1 s2 l :
  cls_digit s1 = false -> cls_digit s2 = false ->
  day_first s1 l -> day_first s2 l -> s1 = s2.
Proof.
  intros H1 H2 [(a & rest & ->)|(a & b & rest & -> & Db)]
         [(a' & rest' & E)|(a' & b' & rest' & E & Db')];
    injection E as; subst; congruence.
Qed.

Lemma formats_exclusive_on data f1 f2 d1 d2 :
  In f1 formatos_fecha -> In f2 formatos_fecha ->
  strptime data f1 = Ok d1 -> strptime data f2 = Ok d2 -> f1 = f2.
Proof.
  unfold formatos_fecha. simpl.
  intros [<-|[<-|[<-|[<-|[]]]]] [<-|[<-|[<-|[<-|[]]]]] H1 H2;
    try reflexivity; exfalso;
    repeat match goal with
           | H : strptime _ "%Y-%m-%d" = Ok _ |- _ =>
               apply shape_Ymd in H; destruct H as [H _]
           | H : strptime _ "%Y/%m/%d" = Ok _ |- _ =>
               apply shape_Ymd_slash in H; destruct H as [H _]
           | H : strptime _ "%d-%m-%Y" = Ok _ |- _ =>
               apply shape_dmY in H; destruct H as [H _]
           | H : strptime _ "%d/%m/%Y" = Ok _ |- _ =>
               apply shape_dmY_slash in H; destruct H as [H _]
           end;
    first [ eapply (year_day _ hyphen); now eauto using hyphen_not_digit
          | eapply (year_day _ slash); now eauto using slash_not_digit
          | assert (hyphen = slash)
              by (first [ eapply year_year; eassumption
                        | eapply day_day;
                          eauto using hyphen_not_digit, slash_not_digit ]);
            discriminate
          | assert (slash = hyphen)
              by (first [ eapply year_year; eassumption
                        | eapply day_day;
                          eauto using hyphen_not_digit, slash_not_digit ]);
            discriminate ].
Qed.

Lemma parse_fecha_ok formatos fecha :
  exists o, parse_fecha formatos fecha = Ok o.
Proof.
  induction formatos as [|f fs IH]; simpl; [eauto|].
  destruct (strptime (strip fecha) f) as [d|e] eqn:E; [eauto|].
  destruct (strptime_raises _ _ _ E) as [msg ->]. exact IH.
Qed.

Lemma parse_fecha_Some formatos fecha d :
  parse_fecha formatos fecha = Ok (Some d) ->
  exists f, In f formatos /\ strptime (strip fecha) f = Ok d.
Proof.
  induction formatos as [|f fs IH]; simpl; [discriminate|].
  destruct (strptime (strip fecha) f) as [d'|e] eqn:E.
  - intros [= <-]. eauto.
  - destruct e; try discriminate.
    intros H. apply IH in H as (f' & Hin & Hf). eauto.
Qed.

Lemma parse_fecha_None formatos fecha :
  parse_fecha formatos fecha = Ok None ->
  forall f d, In f formatos -> strptime (strip fecha) f <> Ok d.
Proof.
  induction formatos as [|f fs IH]; simpl; [intros _ f d []|].
  destruct (strptime (strip fecha) f) as [d'|e] eqn:E; [discriminate|].
  destruct e; try discriminate.
  intros H f' d [<-|Hin]; [congruence|now apply IH].
Qed.

(** X8.  No text parses under two of the four formats, so the order in
    which they are tried has no influence: any list naming the same
    formats, in any order, parses every text to the same result. *)
Theorem format_order_is_immaterial :
  forall fecha : string,
    (forall f1 f2 d1 d2,
        In f1 formatos_fecha -> In f2 formatos_fecha ->
        strptime (strip fecha) f1 = Ok d1 ->
        strptime (strip fecha) f2 = Ok d2 ->
        f1 = f2)
    /\ (forall formatos : list string,
           (forall f, In f formatos <-> In f formatos_fecha) ->
           parse_fecha formatos fecha = parse_fecha formatos_fecha fecha).
Proof.
  intros fecha. split.
  - intros f1 f2 d1 d2. apply formats_exclusive_on.
  - intros fs Hsame.
    destruct (parse_fecha_ok fs fecha) as [o Ho].
    destruct (parse_fecha_ok formatos_fecha fecha) as [o' Ho'].
    rewrite Ho, Ho'. f_equal.
    destruct o as [d|], o' as [d'|]; try reflexivity.
    + apply parse_fecha_Some in Ho as (f & Hin & Hf).
      apply parse_fecha_Some in Ho' as (f' & Hin' & Hf').
      apply Hsame in Hin.
      assert (f = f') by (eapply formats_exclusive_on; eauto).
      subst. congruence.
    + apply parse_fecha_Some in Ho as (f & Hin & Hf).
      apply Hsame in Hin.
      now apply (parse_fecha_None _ _ Ho' f d) in Hin.
    + apply parse_fecha_Some in Ho' as (f & Hin & Hf).
      apply Hsame in Hin.
      now apply (parse_fecha_None _ _ Ho f d') in Hin.
Qed.

(** X9.  A date text is accepted only if, once the blanks around it are
    removed, it has between 8 and 10 characters; a text carrying more,
    such as a date followed by a time, is rejected. *)
Theorem accepted_date_length :
  forall (fecha : string) (d : date),
    parse_fecha formatos_fecha fecha = Ok (Some d) ->
    (8 <= String.length (strip fecha) <= 10)%nat.
Proof.
  intros fecha d H. apply parse_fecha_Some in H as (f & Hin & Hf).
  rewrite <- ExtractorMore.length_list_ascii_of_string.
  unfold formatos_fecha in Hin. simpl in Hin.
  destruct Hin as [<-|[<-|[<-|[<-|[]]]]].
  - now apply shape_Ymd in Hf.
  - now apply shape_dmY in Hf.
  - now apply shape_dmY_slash in Hf.
  - now apply shape_Ymd_slash in Hf.
Qed.

Lemma accepted_date_length_witness :
  parse_fecha formatos_fecha " 3/1/2025 " = Ok (Some (Date (ymd2ord 2025 1 3)))
  /\ (8 <= String.length (strip " 3/1/2025 ") <= 10)%nat.
Proof.
  assert (H : parse_fecha formatos_fecha " 3/1/2025 "
              = Ok (Some (Date (ymd2ord 2025 1 3))))
    by (vm_compute; reflexivity).
  split; [exact H|].
  exact (accepted_date_length _ _ H).
Defined.

Example date_with_time_is_rejected :
  parse_fecha formatos_fecha "2025-01-01 10:00" = Ok None.
Proof. vm_compute. reflexivity. Qed.

(** *** Blanks around the date *)









End DueDateMore.

(* ===================================================================== *)
(** ** More on the graph: steps, conversations, answers *)
(* ===================================================================== *)

Module GraphMore.

Import Chars Exc Flow Service Agent ActSpec DecideSpec.

Section Graph.

Context {World Args : Type}.
Variable system_prompt : string.
Variable model : Model World Args.
Variable tools_by_name : string -> option (Tool World Args).

#[local] Abbreviation step :=
  (graph_step system_prompt model tools_by_name).
#[local] Abbreviation reached :=
  (reachable system_prompt model tools_by_name).

(** The node that follows a response of the model. *)
Definition route_after (calls : list (ToolCall Args)) : node :=
  match calls with
  | [] => node_END
  | _ :: _ => node_tools
  end.

Lemma should_continue_after pre content (calls : list (ToolCall Args)) rag :
  should_continue (MkState (pre ++ [AIMessage content calls]) rag)
  = Ok (route_after calls).
Proof.
  unfold should_continue. simpl. rewrite rev_app_distr. simpl.
  destruct calls; reflexivity.
Qed.

Lemma decide_step_inv st w n' st' w' :
  step node_decide st w = (Ok (n', st'), w') ->
  exists content calls,
    model (decide_prompt system_prompt st) w
    = (Ok (AIMessage content calls), w')
    /\ st' = MkState (messages st ++ [AIMessage content calls])
                     (rag_invoice st)
    /\ n' = route_after calls.
Proof.
  unfold graph_step, decide_node.
  destruct (model (decide_prompt system_prompt st) w) as [[msg|e] w1] eqn:E;
    [|discriminate].
  destruct msg as [c|c|c calls|c id]; try discriminate.
  unfold after_decide, rag_invoice_after. simpl.
  rewrite should_continue_after. intros [= <- <- <-]. eauto.
Qed.

(** X11.  A DECIDE step that succeeds calls the model once, on the prompt
    of the current state, adds exactly the returned assistant message at
    the end of the conversation, leaves the cached invoice of the graph
    state as it was, and goes on to the tools when the message requests
    at least one call and to END when it requests none. *)
Theorem decide_step_effect :
  forall (st : AgentState Args) (w : World) n' st' w',
    step node_decide st w = (Ok (n', st'), w') ->
    exists content calls,
      model (decide_prompt system_prompt st) w
      = (Ok (AIMessage content calls), w')
      /\ messages st' = messages st ++ [AIMessage content calls]
      /\ rag_invoice st' = rag_invoice st
      /\ (n' = node_tools <-> calls <> [])
      /\ (n' = node_END <-> calls = [])
      /\ n' <> node_decide.
Proof.
  intros st w n' st' w' H.
  apply decide_step_inv in H as (content & calls & Hm & -> & ->).
  exists content, calls. split; [exact Hm|]. simpl.
  destruct calls; simpl; repeat split; congruence.
Qed.

Lemma tools_step_inv st w n' st' w' :
  step node_tools st w = (Ok (n', st'), w') ->
  exists pre last,
    messages st = pre ++ [last]
    /\ n' = node_decide
    /\ messages st'
       = messages st
         ++ map message_of
                (fst (trace tools_by_name (tool_calls_of last) w))
    /\ map o_call (fst (trace tools_by_name (tool_calls_of last) w))
       = tool_calls_of last.
Proof.
  unfold graph_step.
  destruct (tools_node tools_by_name st w) as [[upd|e] w1] eqn:E;
    [|discriminate].
  intros [= <- <- <-].
  destruct (rev (messages st)) as [|last older] eqn:Er.
  - unfold tools_node in E. rewrite Er in E. discriminate.
  - assert (Em : messages st = rev older ++ [last]).
    { rewrite <- (rev_involutive (messages st)), Er. reflexivity. }
    exists (rev older), last. split; [exact Em|]. split; [reflexivity|].
    destruct st as [msgs rag]. simpl in Em. subst msgs.
    rewrite tools_node_trace in E. injection E as <- _. simpl.
    split; [reflexivity|apply trace_calls].
Qed.

Definition is_reply (msg : Message Args) : bool :=
  match msg with
  | AIMessage _ _ | ToolMessage _ _ => true
  | SystemMessage _ | HumanMessage _ => false
  end.

Lemma forallb_message_of (os : list (@call_outcome World Args)) :
  forallb is_reply (map message_of os) = true.
Proof. induction os as [|o os IH]; simpl; auto. Qed.

(** X12.  The conversation only grows: every step of the graph keeps the
    messages it found, in their order, and adds assistant and tool
    messages only, never a user or a system message. *)
Theorem conversation_is_append_only :
  forall (n : node) (st : AgentState Args) (w : World) n' st' w',
    step n st w = (Ok (n', st'), w') ->
    exists added,
      messages st' = messages st ++ added
      /\ forallb is_reply added = true.
Proof.
  intros n st w n' st' w' H. destruct n.
  - apply decide_step_inv in H as (content & calls & _ & -> & _).
    exists [AIMessage content calls]. now split.
  - apply tools_step_inv in H as (pre & last & _ & _ & -> & _).
    eexists. split; [reflexivity|apply forallb_message_of].
  - unfold graph_step in H. injection H as _ <- _.
    exists []. split; [now rewrite app_nil_r|reflexivity].
Qed.

(** *** The shape of a conversation *)

Definition tool_results (texts : list string) (calls : list (ToolCall Args))
  : list (Message Args) :=
  map (fun tc => ToolMessage (fst tc) (tc_id (snd tc))) (combine texts calls).

(** The conversations of one question, with the node that comes next:
    the question; then rounds made of an assistant message with calls
    followed by one tool result per call, in the order of the calls and
    with their ids; and at the end an assistant message without calls. *)
Inductive conversation (question : string)
  : node -> list (Message Args) -> Prop :=
| conv_question :
    conversation question node_decide [HumanMessage question]
| conv_request msgs content calls :
    conversation question node_decide msgs ->
    calls <> [] ->
    conversation question node_tools (msgs ++ [AIMessage content calls])
| conv_results msgs content calls texts :
    conversation question node_tools (msgs ++ [AIMessage content calls]) ->
    length texts = length calls ->
    conversation question node_decide
                 ((msgs ++ [AIMessage content calls])
                    ++ tool_results texts calls)
| conv_answer msgs content :
    conversation question node_decide msgs ->
    conversation question node_END (msgs ++ [AIMessage content []]).

Lemma message_of_tool_results (os : list (@call_outcome World Args)) :
  map message_of os
  = tool_results (map (fun o => str_value (o_result o)) os) (map o_call os).
Proof.
  unfold tool_results.
  induction os as [|o os IH]; simpl; [reflexivity|now rewrite IH].
Qed.

Lemma conversation_tools_last question msgs :
  conversation question node_tools msgs ->
  exists pre content calls,
    msgs = pre ++ [AIMessage content calls] /\ calls <> [].
Proof.
  intros H. remember node_tools as n eqn:En.
  destruct H; try discriminate. eauto.
Qed.

Lemma conversation_step question n st w n' st' w' :
  conversation question n (messages st) ->
  step n st w = (Ok (n', st'), w') ->
  conversation question n' (messages st').
Proof.
  intros Hc H. destruct n.
  - apply decide_step_inv in H as (content & calls & _ & -> & ->). simpl.
    destruct calls as [|call calls]; simpl.
    + now apply conv_answer.
    + apply conv_request; [assumption|discriminate].
  - pose proof Hc as Hc'.
    apply conversation_tools_last in Hc' as (pre0 & content & calls & Em & _).
    apply tools_step_inv in H as (pre & last & Em' & -> & -> & Hcalls).
    rewrite Em in Em'. apply app_inj_tail in Em' as [<- <-].
    simpl in Hcalls |- *. rewrite Em in *.
    rewrite message_of_tool_results, Hcalls.
    apply conv_results; [assumption|].
    rewrite <- Hcalls at 2. now rewrite !length_map.
  - unfold graph_step in H. injection H as <- <- _. assumption.
Qed.

(** X13.  Every conversation met while a question is processed has the
    same shape: the question, then rounds in which an assistant message
    with calls is followed by exactly one tool result per call, in the
    order of the calls and carrying their ids, and, once END is reached,
    a last assistant message without calls.  The tools run only after an
    assistant message that requests calls. *)
Theorem conversation_shape :
  forall (question : string) (n : node) (st : AgentState Args) (w : World),
    reached question n st w ->
    conversation question n (messages st).
Proof.
  intros question n st w H. induction H as [w|n st w n' st' w' _ IH Hs].
  - apply conv_question.
  - eapply conversation_step; eauto.
Qed.

(** *** What [ask_custom] returns *)

Lemma reached_END question n st w :
  reached question n st w ->
  n = node_END ->
  exists prompt w0 content pre,
    model prompt w0 = (Ok (AIMessage content []), w)
    /\ messages st = pre ++ [AIMessage content []].
Proof.
  induction 1 as [w|n st w n' st' w' Hr IH Hs]; [discriminate|].
  intros ->. destruct n.
  - apply decide_step_inv in Hs as (content & calls & Hm & -> & Hn).
    destruct calls; [|discriminate]. simpl. eauto 6.
  - apply tools_step_inv in Hs as (_ & _ & _ & Hn & _). discriminate.
  - unfold graph_step in Hs. injection Hs as <- <-. now apply IH.
Qed.

(** X14.  When [ask_custom] returns an answer, that answer is the content
    of an assistant message that the model returned without tool calls,
    and the world is the one that call of the model left: the fallback
    text for an empty conversation is never what is returned. *)
Theorem answer_is_the_final_response :
  forall (fuel : nat) (question answer : string) (w w' : World),
    ask_custom system_prompt fuel model tools_by_name question w
    = Some (Ok answer, w') ->
    exists prompt w0,
      model prompt w0 = (Ok (AIMessage answer []), w').
Proof.
  intros fuel question answer w w'. unfold ask_custom.
  destruct (run_graph system_prompt fuel model tools_by_name node_decide
                      (initial_state question) w)
    as [[[result|e] w1]|] eqn:E; try discriminate.
  intros [= <- <-].
  assert (Hr : reached question node_END result w1).
  { eapply run_graph_reachable; [apply reach_init|exact E]. }
  destruct (reached_END _ _ _ _ Hr eq_refl)
    as (prompt & w0 & content & pre & Hm & Em).
  exists prompt, w0. unfold final_answer. rewrite Em, rev_app_distr.
  simpl. exact Hm.
Qed.

Lemma reached_nonempty question n st w :
  reached question n st w -> messages st <> [].
Proof.
  intros H. destruct (reachable_isolated _ _ _ _ _ _ _ H) as [Hu _].
  intros E. rewrite E in Hu. discriminate.
Qed.

(** A failure of the model: it raises, or returns something that is not
    an assistant message. *)
Definition model_failed (e : exc) (w' : World) : Prop :=
  exists prompt w0,
    model prompt w0 = (Raise e, w')
    \/ exists msg other,
        model prompt w0 = (Ok other, w')
        /\ (forall content calls, other <> AIMessage content calls)
        /\ e = ValueError msg.

Lemma step_raises question n st w e w' :
  reached question n st w ->
  step n st w = (Raise e, w') ->
  model_failed e w'.
Proof.
  intros Hr. unfold graph_step. destruct n.
  - unfold decide_node.
    destruct (model (decide_prompt system_prompt st) w) as [[msg|e0] w1] eqn:E.
    + destruct msg as [c|c|c calls|c id];
        try (intros [= <- <-]; eexists _, _; right; eexists _, _;
             split; [exact E|]; split; [discriminate|reflexivity]).
      unfold after_decide. simpl. rewrite should_continue_after.
      discriminate.
    + intros [= <- <-]. eexists _, _. left. exact E.
  - unfold tools_node.
    pose proof (reached_nonempty _ _ _ _ Hr) as Hne.
    destruct (rev (messages st)) as [|last older] eqn:Er.
    + exfalso. apply Hne. rewrite <- (rev_involutive (messages st)), Er.
      reflexivity.
    + rewrite tools_loop_trace. discriminate.
  - discriminate.
Qed.

Lemma run_graph_raises question fuel :
  forall n st w e w',
    reached question n st w ->
    run_graph system_prompt fuel model tools_by_name n st w
    = Some (Raise e, w') ->
    model_failed e w'.
Proof.
  induction fuel as [|fuel IH]; intros n st w e w' Hr;
    destruct n; cbn [run_graph]; try discriminate.
  - destruct (step node_decide st w) as [[[next st1]|e1] w1] eqn:E.
    + apply IH. eapply reach_step; eauto.
    + intros [= <- <-]. eapply step_raises; eauto.
  - destruct (step node_tools st w) as [[[next st1]|e1] w1] eqn:E.
    + apply IH. eapply reach_step; eauto.
    + intros [= <- <-]. eapply step_raises; eauto.
Qed.

(** *** The tools of one ACT step *)

(** The world after the registered tool of a call has run; a call to an
    unknown tool leaves the world alone. *)
Definition world_after_call (w : World) (call : ToolCall Args) : World :=
  match tools_by_name (tc_name call) with
  | Some tool => snd (tool (tc_args call) w)
  | None => w
  end.

Lemma run_call_world call w :
  snd (run_call tools_by_name call w) = world_after_call w call.
Proof.
  unfold run_call, world_after_call.
  destruct (tools_by_name (tc_name call)) as [tool|]; [|reflexivity].
  destruct (tool (tc_args call) w) as [[v|e] w1]; reflexivity.
Qed.

Lemma trace_world calls :
  forall w, snd (trace tools_by_name calls w)
            = fold_left world_after_call calls w.
Proof.
  induction calls as [|call calls IH]; intros w; simpl; [reflexivity|].
  rewrite <- run_call_world.
  destruct (run_call tools_by_name call w) as [[result entry] w1].
  rewrite <- IH. simpl. destruct (trace tools_by_name calls w1). reflexivity.
Qed.

(** X16.  One ACT step runs the registered tool of every requested call
    exactly once, in the order of the request, each in the world the
    previous one left; a call to an unknown tool runs nothing. *)
Theorem tools_run_once_in_request_order :
  forall (pre : list (Message Args)) (content : string)
         (calls : list (ToolCall Args)) (rag : option invoice_payload)
         (w : World),
    snd (tools_node tools_by_name
                    (MkState (pre ++ [AIMessage content calls]) rag) w)
    = fold_left world_after_call calls w.
Proof.
  intros pre content calls rag w.
  rewrite tools_node_trace. simpl. apply trace_world.
Qed.

Lemma keep_last_app (os1 os2 : list (@call_outcome World Args)) init :
  fold_left keep_last (os1 ++ os2) init
  = fold_left keep_last os2 (fold_left keep_last os1 init).
Proof. apply fold_left_app. Qed.

Lemma keep_last_all_None (os : list (@call_outcome World Args)) init :
  Forall (fun o => o_entry o = None) os ->
  fold_left keep_last os init = init.
Proof.
  induction 1 as [|o os Ho _ IH] in init |- *; simpl; [reflexivity|].
  unfold keep_last at 2. rewrite Ho. apply IH.
Qed.

(** X17.  When several calls of one ACT step write a cache entry, the
    entry of the last such call is the one the step returns and the one
    the graph state holds afterwards. *)
Theorem last_cache_entry_wins :
  forall (pre : list (Message Args)) (last : Message Args)
         (rag : option invoice_payload) (w : World)
         (before after : list call_outcome) (o : call_outcome)
         (p : invoice_payload),
    fst (trace tools_by_name (tool_calls_of last) w) = before ++ o :: after ->
    o_entry o = Some p ->
    Forall (fun o' => o_entry o' = None) after ->
    exists upd w',
      tools_node tools_by_name (MkState (pre ++ [last]) rag) w = (Ok upd, w')
      /\ u_rag_invoice upd = Some p
      /\ rag_invoice (after_tools (MkState (pre ++ [last]) rag) upd)
         = Some p.
Proof.
  intros pre last rag w before after o p Et Ho Hafter.
  rewrite tools_node_trace. do 2 eexists. split; [reflexivity|].
  assert (E : fold_left keep_last
                        (fst (trace tools_by_name (tool_calls_of last) w))
                        None = Some p).
  { rewrite Et, keep_last_app. simpl. unfold keep_last at 2. rewrite Ho.
    now apply keep_last_all_None. }
  unfold after_tools, rag_invoice_after. simpl. rewrite E. auto.
Qed.

(** *** The prompt *)

Lemma reached_conversation_messages question n st w :
  reached question n st w ->
  forallb is_conversation_message (messages st) = true.
Proof.
  induction 1 as [w|n st w n' st' w' _ IH Hs]; [reflexivity|].
  destruct n.
  - apply decide_step_inv in Hs as (content & calls & _ & -> & _). simpl.
    rewrite forallb_app, IH. reflexivity.
  - apply tools_step_inv in Hs as (pre & last & _ & _ & -> & _).
    rewrite forallb_app, IH. simpl.
    induction (fst (trace tools_by_name (tool_calls_of last) w));
      simpl; auto.
  - unfold graph_step in Hs. injection Hs as _ <- _. exact IH.
Qed.

Lemma filter_all {A : Type} (f : A -> bool) l :
  forallb f l = true -> filter f l = l.
Proof.
  induction l as [|x l IH]; simpl; [reflexivity|].
  intros H. apply andb_true_iff in H as [Hx Hl]. now rewrite Hx, IH.
Qed.

Lemma clear_keeps_messages (st : AgentState Args) :
  messages (clear_if_different st) = messages st.
Proof.
  destruct (clear_if_different_cases st) as [->|[-> _]]; reflexivity.
Qed.

Lemma clear_keeps_or_drops (st : AgentState Args) :
  rag_invoice (clear_if_different st) = rag_invoice st
  \/ rag_invoice (clear_if_different st) = None.
Proof.
  destruct (clear_if_different_cases st) as [->|[-> _]]; auto.
Qed.

(** X18.  While a question is processed, the prompt DECIDE sends to the
    model is the system message, then every message of the conversation
    in order, none left out, then at most one note; a note is there only
    when the state holds a cached invoice text that is not empty, and it
    is the fixed sentence with the length of that text. *)
Theorem prompt_is_the_whole_conversation :
  forall (question : string) (n : node) (st : AgentState Args) (w : World),
    reached question n st w ->
    exists note,
      decide_prompt system_prompt st
      = SystemMessage system_prompt :: messages st ++ note
      /\ (note = []
          \/ exists p, rag_invoice st = Some p
                       /\ raw_text p <> ""%string
                       /\ note = [HumanMessage (context_msg (raw_text p))]).
Proof.
  intros question n st w Hr.
  exists (context_note (clear_if_different st)). split.
  - unfold decide_prompt, build_prompt. rewrite clear_keeps_messages.
    rewrite (filter_all _ _ (reached_conversation_messages _ _ _ _ Hr)).
    reflexivity.
  - unfold context_note.
    destruct (clear_keeps_or_drops st) as [E|E]; rewrite E; [|now left].
    destruct (rag_invoice st) as [p|]; [|now left].
    destruct (raw_text p) eqn:Et; [now left|].
    right. exists p. rewrite Et. repeat split; congruence.
Qed.

End Graph.

(** *** The statements above on the conversation of [Demo] *)

Lemma decide_step_effect_witness :
  graph_step "SYSTEM" Demo.model Demo.registry node_decide
             (initial_state Demo.question) tt
  = (Ok (node_tools, Demo.asked), tt)
  /\ exists content calls,
      Demo.model (decide_prompt "SYSTEM" (initial_state Demo.question)) tt
      = (Ok (AIMessage content calls), tt)
      /\ messages Demo.asked
         = messages (initial_state Demo.question)
           ++ [AIMessage content calls]
      /\ rag_invoice Demo.asked
         = rag_invoice (Args := unit) (initial_state Demo.question)
      /\ (node_tools = node_tools <-> calls <> [])
      /\ (node_tools = node_END <-> calls = [])
      /\ node_tools <> node_decide.
Proof.
  assert (H : graph_step "SYSTEM" Demo.model Demo.registry node_decide
                         (initial_state Demo.question) tt
              = (Ok (node_tools, Demo.asked), tt))
    by (vm_compute; reflexivity).
  split; [exact H|].
  exact (decide_step_effect "SYSTEM" Demo.model Demo.registry _ _ _ _ _ H).
Defined.

Lemma conversation_is_append_only_witness :
  graph_step "SYSTEM" Demo.model Demo.registry node_tools Demo.asked tt
  = (Ok (node_decide, Demo.answered), tt)
  /\ exists added,
      messages Demo.answered = messages Demo.asked ++ added
      /\ forallb is_reply added = true.
Proof.
  assert (H : graph_step "SYSTEM" Demo.model Demo.registry node_tools
                         Demo.asked tt
              = (Ok (node_decide, Demo.answered), tt))
    by (vm_compute; reflexivity).
  split; [exact H|].
  exact (conversation_is_append_only "SYSTEM" Demo.model Demo.registry
                                     _ _ _ _ _ _ H).
Defined.

Lemma conversation_shape_witness :
  reachable "SYSTEM" Demo.model Demo.registry Demo.question node_decide
            Demo.answered tt
  /\ conversation Demo.question node_decide (messages Demo.answered).
Proof.
  split; [exact Demo.answered_reachable|].
  exact (conversation_shape "SYSTEM" Demo.model Demo.registry _ _ _ _
                            Demo.answered_reachable).
Defined.

Lemma answer_is_the_final_response_witness :
  ask_custom "SYSTEM" 3 Demo.model Demo.registry Demo.question tt
  = Some (Ok Demo.reply, tt)
  /\ exists prompt w0,
      Demo.model prompt w0 = (Ok (AIMessage Demo.reply []), tt).
Proof.
  assert (H : ask_custom "SYSTEM" 3 Demo.model Demo.registry Demo.question tt
              = Some (Ok Demo.reply, tt)) by (vm_compute; reflexivity).
  split; [exact H|].
  exact (answer_is_the_final_response "SYSTEM" Demo.model Demo.registry
                                      _ _ _ _ _ H).
Defined.

(** Two invoices asked for in one step: the cache keeps the second. *)
Definition invoice_tool : Tool unit string :=
  fun invoice_number w => (Ok (VStr ("Factura " ++ invoice_number)), w).

Definition invoice_registry (tool_name : string)
  : option (Tool unit string) :=
  if String.eqb tool_name "rag_get_invoice_data" then Some invoice_tool
  else None.

Definition two_invoices : Message string :=
  AIMessage ""
    [ MkToolCall "rag_get_invoice_data" "AAA111111"%string "call_1";
      MkToolCall "rag_get_invoice_data" "BBB222222"%string "call_2" ].

Lemma last_cache_entry_wins_witness :
  exists upd w',
    tools_node invoice_registry
               (MkState ([HumanMessage "dos facturas"] ++ [two_invoices])
                        None) tt
    = (Ok upd, w')
    /\ u_rag_invoice upd = Some (Payload "Factura BBB222222" false)
    /\ rag_invoice
         (after_tools
            (MkState ([HumanMessage "dos facturas"] ++ [two_invoices]) None)
            upd)
       = Some (Payload "Factura BBB222222" false).
Proof.
  apply (last_cache_entry_wins
           invoice_registry [HumanMessage "dos facturas"%string]
           two_invoices None tt
           [ Outcome (MkToolCall "rag_get_invoice_data" "AAA111111"%string
                                 "call_1")
                     tt (VStr "Factura AAA111111")
                     (Some (Payload "Factura AAA111111" false)) ]
           []
           (Outcome (MkToolCall "rag_get_invoice_data" "BBB222222"%string
                                "call_2")
                    tt (VStr "Factura BBB222222")
                    (Some (Payload "Factura BBB222222" false)))
           (Payload "Factura BBB222222" false)).
  - vm_compute. reflexivity.
  - reflexivity.
  - constructor.
Defined.

Lemma prompt_is_the_whole_conversation_witness :
  reachable "SYSTEM" Demo.model Demo.registry Demo.question node_decide
            Demo.answered tt
  /\ exists note,
      decide_prompt "SYSTEM" Demo.answered
      = SystemMessage "SYSTEM" :: messages Demo.answered ++ note
      /\ (note = []
          \/ exists p, rag_invoice Demo.answered = Some p
                       /\ raw_text p <> ""%string
                       /\ note = [HumanMessage (context_msg (raw_text p))]).
Proof.
  split; [exact Demo.answered_reachable|].
  exact (prompt_is_the_whole_conversation "SYSTEM" Demo.model Demo.registry
                                          _ _ _ _ Demo.answered_reachable).
Defined.

End GraphMore.
(* ===================================================================== *)
(** * Further properties: the invoice tool, the service URLs, the tools
      the service keeps *)
(* ===================================================================== *)

Module ToolsMore.

Import Chars Exc Service Agent RagTool ToolFilter.

Local Open Scope string_scope.

(** ** Text helpers *)

Lemma list_of_append (u v : string) :
  list_ascii_of_string (u ++ v)%string
  = (list_ascii_of_string u ++ list_ascii_of_string v)%list.
Proof. induction u as [|a u IH]; simpl; [reflexivity|now rewrite IH]. Qed.

Lemma append_length (u v : string) :
  String.length (u ++ v)%string = String.length u + String.length v.
Proof. induction u as [|a u IH]; simpl; [reflexivity|now rewrite IH]. Qed.

(** ** [rstrip('/')] *)

Lemma drop_slashes_head l c t :
  drop_slashes l = c :: t -> is_code 47 c = false.
Proof.
  induction l as [|c' l IH]; simpl; [discriminate|].
  destruct (is_code 47 c') eqn:E; [exact IH|]. now intros [= <- _].
Qed.

Lemma drop_slashes_idempotent l :
  drop_slashes (drop_slashes l) = drop_slashes l.
Proof.
  induction l as [|c l IH]; simpl; [reflexivity|].
  destruct (is_code 47 c) eqn:E; [exact IH|]. simpl. now rewrite E.
Qed.

Lemma rstrip_slash_idempotent s :
  rstrip_slash (rstrip_slash s) = rstrip_slash s.
Proof.
  unfold rstrip_slash.
  rewrite list_ascii_of_string_of_list_ascii, rev_involutive.
  now rewrite drop_slashes_idempotent.
Qed.

Lemma rstrip_slash_slash s : rstrip_slash (s ++ "/") = rstrip_slash s.
Proof.
  unfold rstrip_slash. rewrite list_of_append, rev_app_distr. reflexivity.
Qed.

Lemma rstrip_slash_no_trailing s x : rstrip_slash s <> (x ++ "/")%string.
Proof.
  unfold rstrip_slash. intros H.
  apply (f_equal list_ascii_of_string) in H.
  rewrite list_ascii_of_string_of_list_ascii, list_of_append in H.
  apply (f_equal (@rev ascii)) in H.
  rewrite rev_involutive, rev_app_distr in H. simpl in H.
  apply drop_slashes_head in H. discriminate.
Qed.

(** X19.  A trailing slash in GREENTRAVEL_GATEWAY_URL or RAG_BASE_URL
    does not change the URLs the tools call: the base is stripped of its
    trailing slashes once, the second [rstrip] of the tools finds nothing
    to remove, and the path is joined by exactly one slash. *)
Theorem service_urls_ignore_trailing_slash :
  forall (configured : option string) (g : string),
    liquidaciones_url (Some (g ++ "/")) = liquidaciones_url (Some g)
    /\ provedores_url (Some (g ++ "/")) = provedores_url (Some g)
    /\ rag_url (Some (g ++ "/")) = rag_url (Some g)
    /\ liquidaciones_url configured
       = (_get_liquidaciones_service_url configured
          ++ "/api/v1/liquidaciones")%string
    /\ provedores_url configured
       = (_get_provedores_service_url configured
          ++ "/api/v1/provedores")%string
    /\ (forall x,
          _get_liquidaciones_service_url configured <> (x ++ "/")%string)
    /\ (forall x,
          _get_provedores_service_url configured <> (x ++ "/")%string).
Proof.
  intros configured g.
  unfold liquidaciones_url, provedores_url, rag_url, RAG_BASE_URL,
    _get_liquidaciones_service_url, _get_provedores_service_url.
  cbn [getenv].
  rewrite !rstrip_slash_idempotent, !rstrip_slash_slash.
  repeat split; auto using rstrip_slash_no_trailing.
Qed.

(** ** The query of [rag_get_invoice_data] *)

Lemma generic_query_length : String.length generic_query = 38.
Proof. reflexivity. Qed.

Lemma specific_query_length parts :
  String.length
    ("Dame toda la informaci" ++ o_acute ++ "n de la factura con "
     ++ String.concat " y " parts)
  = 43 + String.length (String.concat " y " parts).
Proof.
  change ("Dame toda la informaci" ++ o_acute ++ "n de la factura con "
          ++ String.concat " y " parts)%string
    with (("Dame toda la informaci" ++ o_acute ++ "n de la factura con ")
          ++ String.concat " y " parts)%string.
  rewrite append_length. reflexivity.
Qed.

Lemma query_parts_nil a b c :
  query_parts a b c = []%list
  <-> truthy a = false /\ truthy b = false /\ truthy c = false.
Proof.
  unfold query_parts.
  destruct (truthy a), (truthy b), (truthy c); simpl;
    split; try discriminate; auto; intros (? & ? & ?); discriminate.
Qed.

(** X20.  [rag_get_invoice_data] asks the generic question exactly when
    none of its three arguments holds a text: an argument that is the
    empty string counts as missing, and as soon as one argument holds a
    text the question is a longer, different one. *)
Theorem generic_query_iff_no_argument :
  forall invoice_number cufe provider_nit : option string,
    build_query invoice_number cufe provider_nit = generic_query
    <-> (invoice_number = None \/ invoice_number = Some ""%string)
        /\ (cufe = None \/ cufe = Some ""%string)
        /\ (provider_nit = None \/ provider_nit = Some ""%string).
Proof.
  intros a b c.
  assert (T : forall o : option string,
             truthy o = false <-> o = None \/ o = Some ""%string).
  { intros [[|x s]|]; simpl; split; auto; try discriminate;
      intros [H|H]; discriminate. }
  rewrite <- !T, <- query_parts_nil.
  unfold build_query.
  destruct (query_parts a b c) as [|p parts] eqn:E.
  - tauto.
  - split; [|discriminate].
    intros H. apply (f_equal String.length) in H.
    rewrite specific_query_length, generic_query_length in H. lia.
Qed.

(** ** The outcome of [rag_get_invoice_data] and the cache *)

Section Rag.

Context {World : Type}.
Variable post : string -> rag_payload -> World -> exchange * World.
Variable rag_base_url : option string.

(** The request the tool sends. *)
Definition request (args : rag_args) (w : World) : exchange * World :=
  post (rag_url rag_base_url)
       (payload_of
          (build_query (invoice_number args) (cufe args)
                       (provider_nit args)))
       w.

(** X21.  [rag_get_invoice_data] never raises and sends one request.
    Whatever goes wrong (an HTTP error, another exception, a response
    without the answer field, an answer without a length) comes back as a
    text that starts with Error, which [tools_node] does not cache: the
    returned value gives rise to a cache entry exactly when the response
    holds an answer text that does not itself start with Error, and the
    entry is that text, unchanged. *)
Theorem rag_failures_are_not_cached :
  forall (args : rag_args) (w : World),
    exists v,
      rag_get_invoice_data post rag_base_url args w
      = (Ok v, snd (request args w))
      /\ (forall p,
            cache_entry "rag_get_invoice_data" v = Some p
            <-> exists s,
                  fst (request args w) = Result (Some (AText s))
                  /\ prefix "Error" s = false
                  /\ p = Payload s false)
      /\ ((forall s, fst (request args w) <> Result (Some (AText s))) ->
          (forall r, fst (request args w) <> Result (Some (ASized r))) ->
          exists text, v = VStr text /\ prefix "Error" text = true).
Proof.
  intros args w. unfold rag_get_invoice_data, request.
  destruct (post _ _ w) as [[msg|msg|[[s|r|e]|]] w']; simpl;
    eexists; (split; [reflexivity|]).
  - split; [|eauto].
    intros q. split; [discriminate|]. intros (s' & [=] & _).
  - split; [|eauto].
    intros q. split; [discriminate|]. intros (s' & [=] & _).
  - split; [|intros H; now elim (H s)].
    intros q.
    change (cache_entry "rag_get_invoice_data" (VStr s))
      with (if negb (prefix "Error" s) then Some (Payload s false)
            else None).
    destruct (prefix "Error" s) eqn:E; simpl; split.
    + discriminate.
    + intros (s' & [= <-] & E' & _). congruence.
    + intros [= <-]. eauto.
    + intros (s' & [= <-] & _ & ->). reflexivity.
  - split; [|intros _ H; now elim (H r)].
    intros q. split; [discriminate|]. intros (s' & [=] & _).
  - split; [|eauto].
    intros q. split; [discriminate|]. intros (s' & [=] & _).
  - split; [|eauto].
    intros q. split; [discriminate|]. intros (s' & [=] & _).
Qed.

End Rag.

(** ** The tools [initialize] keeps *)

Section Filter.

Context {World Args : Type}.
Variable tools : list (loaded_tool World Args).
Variable tools_by_name : string -> option (Tool World Args).

Lemma filtered_tools_spec t :
  In t (filtered_tools tools)
  <-> In t tools /\ is_greentravel (name t) = true.
Proof. unfold filtered_tools. apply filter_In. Qed.

(** X22.  When at least one of the tools loaded from the server is on the
    list of [initialize], only listed tools reach the agent: the tools
    bound to the model are the listed ones among those loaded, in their
    order; a listed name is looked up as loaded; and a call the model
    makes to any other name, loaded or not, is answered with the text
    that the tool does not exist, without running anything. *)
Theorem unlisted_tools_are_unreachable :
  forall kept : loaded_tool World Args,
    In kept tools ->
    is_greentravel (name kept) = true ->
    bound_tools tools = filter (fun t => is_greentravel (name t)) tools
    /\ (forall tool_name,
          is_greentravel tool_name = true ->
          agent_registry tools tools_by_name tool_name
          = tools_by_name tool_name)
    /\ (forall (call : ToolCall Args) (w : World),
          is_greentravel (tc_name call) = false ->
          run_call (agent_registry tools tools_by_name) call w
          = ((VStr (unknown_tool_text (tc_name call)), None), w)).
Proof.
  intros kept Hin Hk.
  assert (Hf : In kept (filtered_tools tools))
    by (apply filtered_tools_spec; auto).
  unfold bound_tools, agent_registry, filtered_tools_by_name.
  fold (filtered_tools tools).
  destruct (filtered_tools tools) as [|t kept'] eqn:E; [destruct Hf|].
  repeat split.
  - intros tool_name ->. reflexivity.
  - intros call w Hn. unfold run_call. now rewrite Hn.
Qed.

(** The fallback of [initialize]: with no listed tool among those
    loaded, every loaded tool is used. *)
Lemma fallback_uses_every_tool :
  (forall t, In t tools -> is_greentravel (name t) = false) ->
  bound_tools tools = tools
  /\ forall tool_name,
       agent_registry tools tools_by_name tool_name
       = tools_by_name tool_name.
Proof.
  intros H.
  assert (E : filtered_tools tools = []%list).
  { destruct (filtered_tools tools) as [|t l] eqn:E; [reflexivity|].
    assert (Ht : In t (filtered_tools tools)) by (rewrite E; now left).
    apply filtered_tools_spec in Ht as [Hin Hg].
    rewrite (H t Hin) in Hg. discriminate. }
  unfold bound_tools, agent_registry. now rewrite E.
Qed.

End Filter.

(** ** A run of the two results on a registry *)

Definition due_date_tool : Tool unit unit :=
  fun _ w => (Ok (VStr "2025-11-02"), w).

Definition shell_tool : Tool unit unit :=
  fun _ w => (Ok (VStr "done"), w).

Definition loaded : list (loaded_tool unit unit) :=
  [ LoadedTool "calcular_vencimiento" due_date_tool;
    LoadedTool "run_shell" shell_tool ].

Definition loaded_by_name (tool_name : string) : option (Tool unit unit) :=
  if String.eqb tool_name "calcular_vencimiento" then Some due_date_tool
  else if String.eqb tool_name "run_shell" then Some shell_tool
  else None.

Lemma unlisted_tools_are_unreachable_witness :
  loaded_by_name "run_shell" = Some shell_tool
  /\ run_call (agent_registry loaded loaded_by_name)
              (MkToolCall "run_shell" tt "call_1") tt
     = ((VStr "Error: herramienta 'run_shell' no existe.", None), tt).
Proof.
  split; [reflexivity|].
  destruct (unlisted_tools_are_unreachable loaded loaded_by_name
              (LoadedTool "calcular_vencimiento" due_date_tool))
    as (_ & _ & H).
  - simpl. now left.
  - reflexivity.
  - apply (H (MkToolCall "run_shell" tt "call_1") tt). reflexivity.
Defined.

End ToolsMore.
(* ===================================================================== *)
(** * Further properties: what makes a question fail *)
(* ===================================================================== *)

Module ServiceMore.

Import Exc Flow Agent ToolFilter ActSpec DecideSpec GraphMore.
Import CustomAgentService.

Section Service.

Context {World Args : Type}.
Variable system_prompt : string.
Context {ServerParameters StdioContext Streams ClientSession : Type}.
Variable stdio_client : ServerParameters -> StdioContext.
Variable stdio_enter : StdioContext -> M World Streams.
Variable session_enter : Streams -> M World ClientSession.
Variable session_initialize : ClientSession -> M World unit.
Variable load_tools :
  ClientSession ->
  M World (list (loaded_tool World Args)
           * (string -> option (Tool World Args))).
Variable bind_tools :
  list (loaded_tool World Args) -> res (Model World Args).
Variable recursion_limit : nat.
Variable recursion_error : string.

#[local] Abbreviation init :=
  (initialize stdio_client stdio_enter session_enter session_initialize
              load_tools bind_tools).
#[local] Abbreviation ask :=
  (ask_custom system_prompt stdio_client stdio_enter session_enter
              session_initialize load_tools bind_tools
              recursion_limit recursion_error).
#[local] Abbreviation Self :=
  (Service World Args ServerParameters StdioContext ClientSession).

(** [initialize] does nothing once a session is open, whether or not an
    agent was built. *)
Lemma initialize_with_session (self : Self) w session :
  _session self = Some session ->
  init self w = ((Ok tt, self), w).
Proof. unfold initialize. now intros ->. Qed.

(** When [initialize] returns, a session is open; when it had to open
    one, the agent is built. *)
Lemma initialize_returns (self self' : Self) w w' :
  init self w = ((Ok tt, self'), w') ->
  (exists session, _session self = Some session /\ self' = self /\ w' = w)
  \/ (_session self = None
      /\ exists session graph,
          _session self' = Some session /\ agent self' = Some graph).
Proof.
  unfold initialize.
  destruct (_session self) as [session|] eqn:Es.
  - intros [= <- <-]. left. eauto.
  - intros H. right. split; [reflexivity|]. revert H.
    destruct (server_parameters self) as [params|]; [|discriminate].
    destruct (stdio_enter (stdio_client params) w) as [[streams|e] w1];
      [|discriminate].
    destruct (session_enter streams w1) as [[session|e] w2];
      [|discriminate].
    destruct (session_initialize session w2) as [[u|e] w3];
      [|discriminate].
    destruct (load_tools session w3) as [[[tools tools_by_name]|e] w4];
      [|discriminate].
    destruct (bind_tools (bound_tools tools)) as [model|e];
      [|discriminate].
    intros [= <- <-]. simpl. eauto.
Qed.

(** The graph stops on the step limit or on a failure of the model. *)
Lemma ainvoke_from_raises question (graph : CompiledGraph World Args)
    steps :
  forall n st w e w',
    reachable system_prompt (g_model graph) (g_tools_by_name graph)
              question n st w ->
    ainvoke_from system_prompt recursion_error steps graph n st w
    = (Raise e, w') ->
    e = OtherException recursion_error
    \/ model_failed (g_model graph) e w'.
Proof.
  induction steps as [|steps IH]; intros n st w e w' Hr;
    destruct n; cbn [ainvoke_from]; try discriminate;
    try (intros [= <- <-]; now left).
  - destruct (graph_step system_prompt (g_model graph)
                         (g_tools_by_name graph) node_decide st w)
      as [[[next st1]|e1] w1] eqn:E.
    + apply IH. eapply reach_step; eauto.
    + intros [= <- <-]. right. eapply step_raises; eauto.
  - destruct (graph_step system_prompt (g_model graph)
                         (g_tools_by_name graph) node_tools st w)
      as [[[next st1]|e1] w1] eqn:E.
    + apply IH. eapply reach_step; eauto.
    + intros [= <- <-]. right. eapply step_raises; eauto.
Qed.

(** Within the step limit the run is the one of [run_graph]. *)
Lemma ainvoke_from_run_graph (graph : CompiledGraph World Args) steps :
  forall n st w r,
    run_graph system_prompt steps (g_model graph) (g_tools_by_name graph)
              n st w = Some r ->
    ainvoke_from system_prompt recursion_error steps graph n st w = r.
Proof.
  induction steps as [|steps IH]; intros n st w r;
    destruct n; cbn [run_graph ainvoke_from]; try discriminate;
    try (now intros [= <-]).
  - destruct (graph_step system_prompt (g_model graph)
                         (g_tools_by_name graph) node_decide st w)
      as [[[next st1]|e1] w1]; [apply IH|now intros [= <-]].
  - destruct (graph_step system_prompt (g_model graph)
                         (g_tools_by_name graph) node_tools st w)
      as [[[next st1]|e1] w1]; [apply IH|now intros [= <-]].
Qed.

(** With the session open and the agent built, [ask_custom] is the run
    of the graph from the fresh state. *)
Lemma ask_custom_initialized (self : Self) question w session graph :
  _session self = Some session ->
  agent self = Some graph ->
  ask question self w
  = match ainvoke system_prompt recursion_limit recursion_error graph
                  (initial_state question) w with
    | (Ok result, w') => ((Ok (final_answer result), self), w')
    | (Raise e, w') => ((Raise e, self), w')
    end.
Proof.
  unfold ask_custom. intros Hs Hg. rewrite Hs, Hg.
  cbv beta iota zeta. rewrite Hg. reflexivity.
Qed.

(** X15.  A question fails in one of four ways only.  [initialize] had
    to open the session and raised; or an earlier [initialize] left the
    session open without an agent, which is not retried, and the call on
    the missing agent raises; or the graph used up its step limit; or
    the model failed: it raised, or returned something that is not an
    assistant message, for which [decide_node] raises a [ValueError].
    No value a tool returns, no [Exception] a tool raises and no unknown
    tool name makes the question fail. *)
Theorem question_fails_without_the_tools :
  forall (self self' : Self) (question : string) (w w' : World) (e : exc),
    ask question self w = ((Raise e, self'), w') ->
    (_session self = None /\ init self w = ((Raise e, self'), w'))
    \/ (_session self <> None /\ agent self = None
        /\ self' = self /\ w' = w
        /\ e = OtherException
                 "'NoneType' object has no attribute 'ainvoke'")
    \/ (exists graph,
          agent self' = Some graph
          /\ (e = OtherException recursion_error
              \/ model_failed (g_model graph) e w')).
Proof.
  intros self self' question w w' e. unfold ask_custom.
  assert (Hrun : forall (s : Self) w0 graph,
             agent s = Some graph ->
             match ainvoke system_prompt recursion_limit recursion_error
                           graph (initial_state question) w0 with
             | (Ok result, w1) => ((Ok (final_answer result), s), w1)
             | (Raise e1, w1) => ((Raise e1, s), w1)
             end = ((Raise e, self'), w') ->
             exists graph,
               agent self' = Some graph
               /\ (e = OtherException recursion_error
                   \/ model_failed (g_model graph) e w')).
  { intros s w0 graph Hg. unfold ainvoke.
    destruct (ainvoke_from system_prompt recursion_error recursion_limit
                           graph node_decide (initial_state question) w0)
      as [[result|e1] w1] eqn:E; [discriminate|].
    intros [= <- <- <-]. exists graph. split; [exact Hg|].
    eapply ainvoke_from_raises; [apply reach_init|exact E]. }
  destruct (_session self) as [session|] eqn:Es.
  - destruct (agent self) as [graph|] eqn:Eg.
    + cbv beta iota zeta. rewrite Eg. intros H. right. right.
      eapply Hrun; eauto.
    + rewrite (initialize_with_session self w session Es).
      cbv beta iota zeta. rewrite Eg.
      intros [= <- <- <-]. right. left.
      repeat split; try reflexivity. congruence.
  - destruct (init self w) as [[[[]|e0] self1] w1] eqn:Ei.
    + apply initialize_returns in Ei as [(s & Hs & _)|(_ & s & g & _ & Hg)];
        [congruence|].
      cbv beta iota zeta. rewrite Hg. intros H. right. right.
      eapply Hrun; eauto.
    + cbv beta iota zeta. intros [= <- <- <-]. left. auto.
Qed.

End Service.

(** ** Runs *)

(** A service that was never given its server parameters. *)
Definition fresh : Service unit unit unit unit unit := new_service.

Definition no_tools
  : unit -> M unit (list (loaded_tool unit unit)
                    * (string -> option (Tool unit unit))) :=
  fun _ w => (Raise (OtherException "Connection closed"), w).

Definition ask_fresh (self : Service unit unit unit unit unit)
    (question : string) :=
  ask_custom "SYSTEM" (fun _ => tt) (fun _ w => (Ok tt, w))
             (fun _ w => (Ok tt, w)) (fun _ w => (Ok tt, w))
             no_tools (fun _ => Ok Demo.model)
             25 "Recursion limit of 25 reached" question self tt.

Definition unset_parameters : exc :=
  ValueError
    "MCP server parameters not set. Call set_server_parameters() first".

Lemma question_fails_without_the_tools_witness :
  ask_fresh fresh Demo.question = ((Raise unset_parameters, fresh), tt)
  /\ ((_session fresh = None
       /\ initialize (fun _ => tt) (fun _ w => (Ok tt, w))
                     (fun _ w => (Ok tt, w)) (fun _ w => (Ok tt, w))
                     no_tools (fun _ => Ok Demo.model) fresh tt
          = ((Raise unset_parameters, fresh), tt))
      \/ (_session fresh <> None /\ agent fresh = None
          /\ fresh = fresh /\ tt = tt
          /\ unset_parameters
             = OtherException
                 "'NoneType' object has no attribute 'ainvoke'")
      \/ (exists graph,
            agent fresh = Some graph
            /\ (unset_parameters
                = OtherException "Recursion limit of 25 reached"
                \/ model_failed (g_model graph) unset_parameters tt))).
Proof.
  assert (H : ask_fresh fresh Demo.question
              = ((Raise unset_parameters, fresh), tt))
    by (vm_compute; reflexivity).
  split; [exact H|].
  exact (question_fails_without_the_tools
           "SYSTEM" (fun _ => tt) (fun _ w => (Ok tt, w))
           (fun _ w => (Ok tt, w)) (fun _ w => (Ok tt, w))
           no_tools (fun _ => Ok Demo.model)
           25 "Recursion limit of 25 reached"
           fresh fresh Demo.question tt tt _ H).
Defined.

(** When the tools cannot be loaded the session stays open without an
    agent: the first question fails with the error of [load_tools], every
    later one on the missing agent. *)
Example failed_initialization_is_not_retried :
  exists self1,
    ask_fresh (set_server_parameters fresh tt) Demo.question
    = ((Raise (OtherException "Connection closed"), self1), tt)
    /\ _session self1 = Some tt
    /\ agent self1 = None
    /\ ask_fresh self1 Demo.question
       = ((Raise (OtherException
                    "'NoneType' object has no attribute 'ainvoke'"),
           self1), tt).
Proof. eexists. repeat split. Qed.

End ServiceMore.
